(** * worker-proxy: the call-correlation protocol between a service proxy
      (main thread) and a service hooked to a [Worker]

    The development follows the two TypeScript sources:
    - [src/worker/index.ts]: [hookService], class [WorkerServiceClass] and
      the validation predicates used on the worker side;
    - [src/index.ts]: class [ServiceProxyClass] ([newInstance], [call],
      [onmessage], [terminate], [kill], [proxy]) and the utility predicates
      [isObject], [isArrayLike], [isFunction], [isString], [isNumber],
      [assert].

    JavaScript values are a tree-shaped universe; objects carry the tables of
    their prototype chain.  Values carry no identity: the one sharing the
    program can observe, a worker and a service that are one object, is an
    input of [Worker.hookService].  Promises are cells of a store, settled
    at most once.  The channel between the two threads delivers every
    posted message unchanged. *)

From Stdlib Require Import QArith Qround.
From stdpp Require Import gmap strings list fin_maps pretty.

Set Warnings "-register-all,-clear-no-such-hyp".
Close Scope Q_scope.

(** ** JavaScript values *)

Module Js.

(** A [number]: a finite value (kept as a rational), [NaN] or an infinity. *)
Inductive num :=
| Finite (q : Q)
| NaN
| Infinity (negative : bool).

Definition int (z : Z) : num := Finite (inject_Z z).

(** Function values.  The code of a function written by the service author
    is held by the host and named by an identifier; the methods of
    [WorkerServiceClass] are enumerated; anything else is a built-in. *)
Inductive endpoint_method :=
| Mconstructor
| Monmessage
| McallTargetMethod
| MgetServiceMethods
| Mresolve
| Mreject
| Munknown.

Inductive fn :=
| Native (name : string)
| Code (id : string)
| Own (m : endpoint_method).

(** [VObj own protos]: an object with its own properties and the tables of
    its prototype chain, nearest first; the chain stops at [null].  An
    ordinary object literal has the chain [[object_prototype]]. *)
Inductive value :=
| VUndef
| VNull
| VBool (b : bool)
| VNum (n : num)
| VStr (s : string)
| VFun (f : fn)
| VArr (elts : list value)
| VObj (own : gmap string value) (protos : list (gmap string value)).

Inductive jstype :=
| TUndefined
| TObject
| TBoolean
| TNumber
| TString
| TFunction.

#[global] Instance jstype_eq_dec : EqDecision jstype.
Proof. solve_decision. Defined.

Definition typeof (v : value) : jstype :=
  match v with
  | VUndef => TUndefined
  | VNull => TObject
  | VBool _ => TBoolean
  | VNum _ => TNumber
  | VStr _ => TString
  | VFun _ => TFunction
  | VArr _ | VObj _ _ => TObject
  end.

(** [!!val] *)
Definition truthy (v : value) : bool :=
  match v with
  | VUndef | VNull => false
  | VBool b => b
  | VNum (Finite q) => negb (Qnum q =? 0)%Z
  | VNum NaN => false
  | VNum (Infinity _) => true
  | VStr s => negb (String.eqb s "")
  | VFun _ | VArr _ | VObj _ _ => true
  end.

Definition js_or (a b : value) : value := if truthy a then a else b.

Definition nullish (v : value) : bool :=
  match v with VUndef | VNull => true | _ => false end.

(** *** The built-in prototypes (ECMAScript 5.1, 15.2.4 and 15.4.4) *)

Definition natives (owner : string) (names : list string) : gmap string value :=
  list_to_map ((λ n, (n, VFun (Native (owner +:+ "." +:+ n)))) <$> names).

Definition object_prototype : gmap string value :=
  natives "Object.prototype"
    ["constructor"; "toString"; "toLocaleString"; "valueOf";
     "hasOwnProperty"; "isPrototypeOf"; "propertyIsEnumerable";
     "__defineGetter__"; "__defineSetter__";
     "__lookupGetter__"; "__lookupSetter__"].

(** The members of [Array.prototype] in ECMAScript 5.1.  Later editions
    add functions ([includes], [find], ...).  The program reads an
    inherited member of an array by name in two places only: for a service
    that is an array, which the statements about the exposed methods leave
    out, and for a request dispatched to the method list of the endpoint,
    which [Worker.select_target] leaves undescribed. *)
Definition array_prototype : gmap string value :=
  natives "Array.prototype"
    ["constructor"; "toString"; "toLocaleString"; "concat"; "join"; "pop";
     "push"; "reverse"; "shift"; "slice"; "sort"; "splice"; "unshift";
     "indexOf"; "lastIndexOf"; "every"; "some"; "forEach"; "map"; "filter";
     "reduce"; "reduceRight"].

(** An object literal [{ k: v, ... }]. *)
Definition obj (props : list (string * value)) : value :=
  VObj (list_to_map props) [object_prototype].

(** *** Property access *)

Fixpoint indexed (i : N) (l : list value) : list (string * value) :=
  match l with
  | [] => []
  | x :: rest => (pretty i, x) :: indexed (N.succ i) rest
  end.

Definition array_length (l : list value) : value :=
  VNum (int (Z.of_nat (length l))).

(** The own properties of a value.  Primitives and functions have none in
    this model: none of the names the program reads from a value
    ([uuid], [target], [method], [args], [timeout], [name], [message],
    [stack], [worker], [service], [onterminate], [methods], [postMessage])
    is carried by a primitive, and [length] is only read from objects. *)
Definition own_properties (v : value) : gmap string value :=
  match v with
  | VObj own _ => own
  | VArr l => <["length" := array_length l]> (list_to_map (indexed 0 l))
  | _ => ∅
  end.

Definition prototype_chain (v : value) : list (gmap string value) :=
  match v with
  | VObj _ protos => protos
  | VArr _ => [array_prototype; object_prototype]
  | _ => []
  end.

Fixpoint lookup_chain (k : string) (tables : list (gmap string value))
  : option value :=
  match tables with
  | [] => None
  | t :: rest =>
      match t !! k with
      | Some v => Some v
      | None => lookup_chain k rest
      end
  end.

(** [Object.getPrototypeOf(v)] for an object. *)
Definition getPrototypeOf (v : value) : value :=
  match prototype_chain v with
  | [] => VNull
  | p :: rest => VObj p rest
  end.

(** [v[k]] for a value that is neither [null] nor [undefined].  The
    accessor [__proto__] of the universal base object is not a table entry
    and is left out here; [Worker.this_get] accounts for it at the one
    place where the program reads a member under a name it receives. *)
Definition get (v : value) (k : string) : value :=
  default VUndef (lookup_chain k (own_properties v :: prototype_chain v)).

(** [Object.getOwnPropertyNames(v)] for an object; the order of the names
    is not significant in this model. *)
Definition getOwnPropertyNames (v : value) : list string :=
  (map_to_list (own_properties v)).*1.

(** *** Utilities ([src/index.ts], lines 264-311) *)

Definition isObject (val : value) : bool :=
  truthy val && bool_decide (typeof val = TObject).

Definition isNumber (val : value) : bool :=
  bool_decide (typeof val = TNumber).

Definition isArrayLike (val : value) : bool :=
  isObject val && isNumber (get val "length").

Definition isFunction (val : value) : bool :=
  bool_decide (typeof val = TFunction).

Definition isString (val : value) : bool :=
  bool_decide (typeof val = TString).

Definition isUndefined (val : value) : bool :=
  bool_decide (typeof val = TUndefined).

Definition isArray (val : value) : bool :=
  match val with VArr _ => true | _ => false end.

(** *** Errors and exceptions *)

Definition error_prototype : gmap string value :=
  {[ "name" := VStr "Error"; "message" := VStr "" ]}.

Definition error_chain (errType : string) : list (gmap string value) :=
  if String.eqb errType "Error"
  then [error_prototype; object_prototype]
  else [ {[ "name" := VStr errType; "message" := VStr "" ]};
         error_prototype; object_prototype ].

(** [new errType(message)].  Of the stack only its first line is kept; the
    trace below it depends on the host. *)
Definition new_error (errType message : string) : value :=
  VObj {[ "message" := VStr message;
          "stack" := VStr (errType +:+ ": " +:+ message) ]}
       (error_chain errType).

(** The [TypeError] the host raises on a property read from [null] or
    [undefined], or on a call of something that is not a function. *)
Definition host_type_error : value :=
  new_error "TypeError" "not an object or not a function".

Inductive result (A : Type) :=
| Ok (a : A)
| Throw (e : value).
Arguments Ok {A} a.
Arguments Throw {A} e.

#[global] Instance result_bind : MBind result :=
  λ A B k r, match r with Ok a => k a | Throw e => Throw e end.

(** [assert (val, errType, message)] *)
Definition assert (val : bool) (errType message : string) : result unit :=
  if val then Ok tt else Throw (new_error errType message).

(** *** Numbers *)

Definition is_integer (q : Q) : bool :=
  (Qnum q mod Z.pos (Qden q) =? 0)%Z.

Definition max_safe_integer : Z := (2 ^ 53 - 1)%Z.

(** [Number.isSafeInteger(v)] *)
Definition isSafeInteger (v : value) : bool :=
  match v with
  | VNum (Finite q) =>
      is_integer q && (Z.abs (Qfloor q) <=? max_safe_integer)%Z
  | _ => false
  end.

(** [ToLength], the length an array-like object is taken to have. *)
Definition toLength (v : value) : Z :=
  match v with
  | VNum (Finite q) =>
      Z.min (Z.max (if (Qnum q <? 0)%Z then 0 else Qfloor q) 0) max_safe_integer
  | VNum (Infinity false) => max_safe_integer
  | _ => 0%Z
  end.

(** The argument list [f.apply(t, args)] builds from an array-like [args].
    Limits a host may put on the number of arguments are not modelled. *)
Definition arguments_of (args : value) : list value :=
  match args with
  | VArr l => l
  | _ =>
      (λ i : nat, get args (pretty (N.of_nat i)))
        <$> seq 0 (Z.to_nat (toLength (get args "length")))
  end.

(** *** What calling a function eventually gives *)

(** The behaviour of a function of the service author on one call: it
    returns a plain value, throws, returns a promise that is later
    fulfilled or rejected, or returns a promise that never settles. *)
Inductive behaviour :=
| Returns (v : value)
| Throws (e : value)
| Resolves (v : value)
| Rejects (e : value)
| Unsettled.

Inductive settlement :=
| Fulfil (v : value)
| Fail (e : value)
| Never.

(** [Promise.try(() => ...)]: a synchronous return or throw and an
    asynchronous resolution or rejection become one asynchronous outcome. *)
Definition Promise_try (b : behaviour) : settlement :=
  match b with
  | Returns v | Resolves v => Fulfil v
  | Throws e | Rejects e => Fail e
  | Unsettled => Never
  end.

End Js.

(** ** The worker side: [src/worker/index.ts] *)

Module Worker.
Import Js.

(** *** Validation predicates *)

(** [isWorkerGlobalScope] *)
Definition isWorkerGlobalScope (val : value) : bool :=
  isObject val && isFunction (get val "postMessage").

(** The elements of an array. *)
Definition elements (val : value) : list value :=
  match val with VArr l => l | _ => [] end.

(** [isValidMethodsOption]:
    [!val || Array.isArray(val) && val.every(prop => isString(prop))] *)
Definition isValidMethodsOption (val : value) : bool :=
  negb (truthy val) || (isArray val && forallb isString (elements val)).

(** [isValidServiceBinderSpec] *)
Definition isValidServiceBinderSpec (val : value) : bool :=
  isObject val && isWorkerGlobalScope (get val "worker") &&
  isObject (get val "service") &&
  (negb (truthy (get val "onterminate")) || isFunction (get val "onterminate"))
  && isValidMethodsOption (get val "methods").

(** [isValidWorkerServiceMethodCall] *)
Definition isValidWorkerServiceMethodCall (val : value) : bool :=
  isObject val &&
  (negb (truthy (get val "target")) || isString (get val "target")) &&
  isString (get val "method") &&
  (negb (truthy (get val "args")) || isArrayLike (get val "args")).

(** [isObjectPrototype] *)
Definition isObjectPrototype (val : value) : bool :=
  isObject val && negb (isObject (getPrototypeOf val)).

(** *** The exposed methods *)

(** [keys[key] = true] on the plain object [keys].  Under the name
    [__proto__] the assignment is a call of the accessor of the universal
    base object, which ignores [true] and adds no member. *)
Definition mark (keys : gmap string bool) (key : string) : gmap string bool :=
  if String.eqb key "__proto__" then keys else <[key := true]> keys.

(** [getPropertyNames], called on the object with own properties [own] and
    prototype chain [protos]; [this] is the table of names gathered so far
    ([undefined] on the first call).  When the prototype is [null] it is not
    the root [Object] prototype, and the recursive call asks for the own
    property names of [null], which the host refuses. *)
Fixpoint getPropertyNames (this : option (gmap string bool))
    (own : gmap string value) (protos : list (gmap string value))
  : result (list string) :=
  let keys :=
    foldl mark (default ∅ this)
      (filter (λ key, key ≠ "constructor")
         (getOwnPropertyNames (VObj own protos))) in
  match protos with
  | [] => Throw host_type_error
  | p :: rest =>
      if isObjectPrototype (VObj p rest)
      then Ok (map_to_list keys).*1
      else getPropertyNames (Some keys) p rest
  end.

(** [arr.indexOf(val) >= 0] for a string [val]. *)
Definition includes (arr : value) (val : string) : bool :=
  existsb (λ x, match x with VStr s => String.eqb s val | _ => false end)
    (elements arr).

(** *** The class [WorkerServiceClass] *)

(** The fields of an instance.  [shared]: [this.worker] and
    [this.service] are one object.  Values are trees and do not tell one
    object from another with the same members, so the one sharing the
    class can observe (it compares a target with [this.service], and it
    writes a member of the worker) is recorded beside them. *)
Record WorkerServiceClass := {
  worker : value;
  service : value;
  onterminate : value;
  methods : list string;
  shared : bool
}.

(** [o[k] = v] on an object. *)
Definition write (o : value) (k : string) (v : value) : value :=
  match o with
  | VObj own protos => VObj (<[k := v]> own) protos
  | _ => o
  end.

(** [{ ...spec }] for an object [spec]: a new object with the own members
    of [spec], and none of the members [spec] inherits.  Values carry no
    property attributes: every own member is taken to be enumerable, the
    [length] of an array apart. *)
Definition spread (spec : value) : value :=
  match spec with
  | VObj own _ => VObj own [object_prototype]
  | VArr l =>
      VObj (delete "length" (own_properties (VArr l))) [object_prototype]
  | _ => obj []
  end.

(** [this.onmessage.bind (this)] *)
Definition handler : value := VFun (Own Monmessage).

(** [new WorkerServiceClass (config)], with the list [config.methods]
    apart.  [same]: [config.worker] and [config.service] are one object.
    The handler is written to the worker, which throws when the worker is
    [undefined]; when the service is that same object, it holds the
    handler as well. *)
Definition constructor (same : bool) (config : value) (methods : list string)
  : result WorkerServiceClass :=
  let worker := get config "worker" in
  if nullish worker then Throw host_type_error
  else
    let hooked := write worker "onmessage" handler in
    let one := same && isObject (get config "service") in
    Ok {| worker := hooked;
          service := if one then hooked else get config "service";
          onterminate := get config "onterminate";
          methods := methods;
          shared := one |}.

(** [hookService (spec)], for a spec whose [worker] and [service] are one
    object ([same]) or two.  The methods are gathered from [spec.service];
    the instance is built from [{ ...spec }].  The second component is the
    [onmessage] slot of the worker: the instance whose handler is
    installed, if any. *)
Definition hookService (same : bool) (spec : value)
    (slot : option WorkerServiceClass)
  : result unit * option WorkerServiceClass :=
  let setup :=
    assert (isValidServiceBinderSpec spec) "TypeError" "invalid argument";;
    let service := get spec "service" in
    names ← getPropertyNames None (own_properties service)
              (prototype_chain service);
    constructor same (spread spec)
      (filter (λ val, negb (truthy (get spec "methods"))
                      || includes (get spec "methods") val)
         (filter (λ val, isFunction (get service val)) names)) in
  match setup with
  | Throw e => (Throw e, slot)
  | Ok ws => (Ok tt, Some ws)
  end.

Definition WorkerServiceClass_prototype : gmap string value :=
  list_to_map
    [("constructor", VFun (Own Mconstructor));
     ("onmessage", VFun (Own Monmessage));
     ("callTargetMethod", VFun (Own McallTargetMethod));
     ("getServiceMethods", VFun (Own MgetServiceMethods));
     ("resolve", VFun (Own Mresolve));
     ("reject", VFun (Own Mreject));
     ("unknown", VFun (Own Munknown))].

(** The instance as an object: the fields the constructor assigns, over
    the class prototype. *)
Definition this_object (ws : WorkerServiceClass) : value :=
  VObj (list_to_map
          [("worker", worker ws);
           ("onterminate", onterminate ws);
           ("service", service ws);
           ("methods", VArr (VStr <$> methods ws))])
       [WorkerServiceClass_prototype; object_prototype].

(** [this[k]], the accessor [__proto__] included. *)
Definition this_get (ws : WorkerServiceClass) (k : string) : value :=
  if String.eqb k "__proto__" then getPrototypeOf (this_object ws)
  else get (this_object ws) k.

(** The object a request is dispatched to, when it is the endpoint itself
    or the service. *)
Inductive target :=
| This
| Service.

(** [this.worker.postMessage (msg)]: the messages handed to the channel. *)
Definition postMessage (ws : WorkerServiceClass) (msg : value)
  : result (list value) :=
  if nullish (worker ws) then Throw host_type_error
  else if isFunction (get (worker ws) "postMessage") then Ok [msg]
  else Throw host_type_error.

(** The two kinds of response. *)
Definition resolve_message (uuid res : value) : value :=
  obj [("uuid", uuid); ("method", VStr "resolve"); ("args", VArr [res])].

Definition reject_message (uuid err : value) : value :=
  obj [("uuid", uuid); ("method", VStr "reject");
       ("args", VArr [obj [("name", get err "name");
                           ("message", get err "message");
                           ("stack", get err "stack")]])].

(** [resolve (uuid, res)] *)
Definition resolve (ws : WorkerServiceClass) (uuid res : value)
  : result (list value) :=
  postMessage ws (resolve_message uuid res).

(** [reject (uuid, err)]; reading [err.name] throws when [err] is [null]
    or [undefined]. *)
Definition reject (ws : WorkerServiceClass) (uuid err : value)
  : result (list value) :=
  if nullish err then Throw host_type_error
  else postMessage ws (reject_message uuid err).

(** [unknown ()] *)
Definition unknown : behaviour :=
  Rejects (new_error "Error" "unknown method").

(** What the worker does in reaction to one message: the messages it posts
    and the exception that escapes, if one does. *)
Record reaction := {
  posted : list value;
  uncaught : option value
}.

Section Dispatch.

(** The state of the service and the code of its author's functions. *)
Context {Σ : Type}.
Variable run : string → list value → Σ → behaviour * Σ.

(** [method.apply (target, args)].  [None]: the call lands in code this
    model does not describe, a built-in of the host or a re-entrant method
    of the class, or a method of the class applied to the service. *)
Definition apply (ws : WorkerServiceClass) (method : value) (t : target)
    (args : list value) (σ : Σ) : option (Σ * behaviour * list value) :=
  match method with
  | VFun (Code id) => let '(b, σ') := run id args σ in Some (σ', b, [])
  | VFun (Own Munknown) => Some (σ, unknown, [])
  | VFun (Own m) =>
      match t, m with
      | This, MgetServiceMethods =>
          Some (σ, Returns (VArr (VStr <$> methods ws)), [])
      | This, Mresolve =>
          match resolve ws (get (VArr args) "0") (get (VArr args) "1") with
          | Ok msgs => Some (σ, Returns VUndef, msgs)
          | Throw e => Some (σ, Throws e, [])
          end
      | This, Mreject =>
          match reject ws (get (VArr args) "0") (get (VArr args) "1") with
          | Ok msgs => Some (σ, Returns VUndef, msgs)
          | Throw e => Some (σ, Throws e, [])
          end
      | _, _ => None
      end
  | VFun (Native _) => None
  | _ => Some (σ, Throws host_type_error, [])
  end.

(** The string held by a field that validation found to be a string. *)
Definition string_of (v : value) : string :=
  match v with VStr s => s | _ => "" end.

(** [isObject(this[spec.target]) ? this[spec.target] : this], and whether
    that object is [this.service] (line 133).  A falsy target that is not
    a string converts to one of the keys "undefined", "null", "false", "0"
    and "NaN", none of which names a member.  The object is the service
    when it is reached as [this.service], or as [this.worker] where the
    two are one.  [None]: it is another object the endpoint holds (its
    worker, its list of methods, the prototype of its class), whose
    members belong to the host; the model does not describe a call
    dispatched there. *)
Definition select_target (ws : WorkerServiceClass) (spec : value)
  : option target :=
  match get spec "target" with
  | VStr k =>
      if isObject (this_get ws k)
      then if String.eqb k "service" || (String.eqb k "worker" && shared ws)
           then Some Service
           else None
      else Some This
  | _ => Some This
  end.

(** [target[k]] *)
Definition target_get (ws : WorkerServiceClass) (t : target) (k : string)
  : value :=
  match t with
  | This => this_get ws k
  | Service => get (service ws) k
  end.

(** The method [callTargetMethod] selects (lines 132-135), with the object
    it is applied to. *)
Definition select_method (ws : WorkerServiceClass) (spec : value)
  : option (target * value) :=
  target ← select_target ws spec;
  let name := string_of (get spec "method") in
  let isValidMethod :=
    match target with
    | Service => bool_decide (name ∈ methods ws)
    | This => isFunction (target_get ws target name)
    end in
  Some (target,
        if isValidMethod then target_get ws target name
        else VFun (Own Munknown)).

(** [callTargetMethod (spec)]: the eventual outcome of the call together
    with the messages the called method posts on its own. *)
Definition callTargetMethod (ws : WorkerServiceClass) (spec : value) (σ : Σ)
  : option (Σ * settlement * list value) :=
  match
    assert (isSafeInteger (get spec "uuid")) "TypeError" "invalid argument";;
    assert (isValidWorkerServiceMethodCall spec) "TypeError" "invalid argument"
  with
  | Throw e => Some (σ, Fail e, [])
  | Ok _ =>
      '(target, method) ← select_method ws spec;
      '(σ', b, msgs) ←
        apply ws method target
          (arguments_of (js_or (get spec "args") (VArr []))) σ;
      Some (σ', Promise_try b, msgs)
  end.

(** [onmessage (event)], on [event.data].
    [Promise.try(...).then(resolve).catch(reject)]: the handler given to
    [catch] also receives what [resolve] throws.  When [event.data] is
    [null] or [undefined], reading [event.data.uuid] throws out of the
    handler before anything is chained. *)
Definition onmessage (ws : WorkerServiceClass) (data : value) (σ : Σ)
  : option (Σ * reaction) :=
  if nullish data
  then Some (σ, {| posted := []; uncaught := Some host_type_error |})
  else
    '(σ', outcome, msgs) ← callTargetMethod ws data σ;
    let uuid := get data "uuid" in
    let catch e :=
      match reject ws uuid e with
      | Ok r => {| posted := msgs ++ r; uncaught := None |}
      | Throw e' => {| posted := msgs; uncaught := Some e' |}
      end in
    Some (σ',
          match outcome with
          | Fulfil v =>
              match resolve ws uuid v with
              | Ok r => {| posted := msgs ++ r; uncaught := None |}
              | Throw e => catch e
              end
          | Fail e => catch e
          | Never => {| posted := msgs; uncaught := None |}
          end).

End Dispatch.

End Worker.

(** ** The queue of pending calls *)

Module IndexedQueue.
Import Js.

(** The way a queue chooses the key of a new entry, given the keys in use.
    The one requirement is that the key is not in use. *)
Class Allocator := {
  fresh : gset Z → Z;
  fresh_unused : ∀ used : gset Z, fresh used ∉ used
}.

(** An allocator: one more than the largest key in use. *)
Definition next_key (used : gset Z) : Z :=
  (1 + set_fold Z.max 0 used)%Z.

(** The integer a number denotes, if it denotes one. *)
Definition key_of (n : num) : option Z :=
  match n with
  | Finite q => if is_integer q then Some (Qfloor q) else None
  | _ => None
  end.

Section Queue.
Context `{Allocator} {T : Type}.

(** Modelled from the spec: the module [lib/indexed-queue]
    ([newIndexedQueue], [push], [has], [pop]) is missing from the sources.
    The spec (4.1): [push] stores the record under a newly chosen integer key
    not currently in use and returns the key; [has] is true iff a record is
    currently stored under the key; [pop] removes and returns the record
    stored under the key, and calling it with an absent key is out of
    contract ([None] here). *)
Definition newIndexedQueue : gmap Z T := ∅.

Definition push (record : T) (q : gmap Z T) : Z * gmap Z T :=
  let uuid := fresh (dom q) in (uuid, <[uuid := record]> q).

Definition has (uuid : num) (q : gmap Z T) : bool :=
  match key_of uuid with
  | Some k => bool_decide (is_Some (q !! k))
  | None => false
  end.

Definition pop (uuid : num) (q : gmap Z T) : option (T * gmap Z T) :=
  k ← key_of uuid;
  record ← q !! k;
  Some (record, delete k q).

End Queue.

End IndexedQueue.

(** ** The main-thread side: [src/index.ts] *)

Module Proxy.
Import Js.
Export IndexedQueue.

(** *** Promises *)

(** Why a promise is rejected: with a value, or by [Promise.TimeoutError]
    (which [catch (Promise.TimeoutError, ...)] tells from any value that
    arrives in a message). *)
Inductive reason :=
| Reason (e : value)
| TimeoutError.

Inductive pstate :=
| Pending
| Fulfilled (v : value)
| Rejected (r : reason).

(** What is chained to the promise of a call:
    nothing, [.then(() => this.kill())] or
    [.then(methods => this.proxy(methods))]. *)
Inductive continuation :=
| Plain
| ThenKill
| ThenProxy.

(** One call: the promise [call] returns, the key of its record in the
    queue, and the delay its timer is armed with. *)
Record cell := {
  uuid : Z;
  delay : value;
  state : pstate;
  next : continuation
}.

(** [interface Resolver]: the two functions that settle promise [promise]. *)
Record Resolver := { promise : nat }.

(** [interface WorkerServiceEventData], as far as [onmessage] reads it. *)
Record WorkerServiceEventData := {
  data_uuid : num;
  data_method : string;
  data_args : value
}.

(** A message of the channel as [WorkerServiceEventData]; [None] when it is
    not of that type. *)
Definition decode (msg : value) : option WorkerServiceEventData :=
  match get msg "uuid", get msg "method" with
  | VNum n, VStr m =>
      Some {| data_uuid := n; data_method := m; data_args := get msg "args" |}
  | _, _ => None
  end.

(** *** The class [ServiceProxyClass] *)

Record ServiceProxyClass := {
  worker_alive : bool;       (* [this.worker], until it is terminated *)
  outbox : list value;       (* the messages posted to the worker *)
  calls : gmap Z Resolver;
  promises : list cell
}.

(** [static timeout = 3 * 60 * 1000] *)
Definition timeout : value := VNum (int (3 * 60 * 1000)).

Definition set_state (s : pstate) (c : cell) : cell :=
  {| uuid := uuid c; delay := delay c; state := s; next := next c |}.

Definition set_next (k : continuation) (c : cell) : cell :=
  {| uuid := uuid c; delay := delay c; state := state c; next := k |}.

(** [kill ()] *)
Definition kill (sp : ServiceProxyClass) : ServiceProxyClass :=
  {| worker_alive := false; outbox := outbox sp;
     calls := calls sp; promises := promises sp |}.

(** A pending promise takes the state [s], and a fulfilment runs what
    [then] chained to it; a settled promise stays as it is. *)
Definition settle (p : nat) (s : pstate) (sp : ServiceProxyClass)
  : ServiceProxyClass :=
  match promises sp !! p with
  | Some c =>
      match state c with
      | Pending =>
          let sp' :=
            {| worker_alive := worker_alive sp; outbox := outbox sp;
               calls := calls sp;
               promises := <[p := set_state s c]> (promises sp) |} in
          match next c, s with
          | ThenKill, Fulfilled _ => kill sp'
          | _, _ => sp'
          end
      | _ => sp
      end
  | None => sp
  end.

(** [obj[k] = v] on an object; a primitive keeps no property. *)
Definition set (o : value) (k : string) (v : value) : value :=
  match o with
  | VObj own protos => VObj (<[k := v]> own) protos
  | _ => o
  end.

(** The functions a stand-in forwards to [call]. *)
Definition forward (method : string) (arguments : list value) : value :=
  obj [("target", VStr "service"); ("method", VStr method);
       ("args", VArr arguments)].

(** [proxy (methods)]: the members of the stand-in, each with the function
    from its arguments to the call it places. *)
Definition proxy (methods : list string)
  : gmap string (list value → value) :=
  foldl (λ service method, <[method := forward method]> service) ∅ methods.

(** The member [call[m]] of a [Resolver], when it is a function. *)
Inductive member :=
| Resolve
| Reject
| Inherited.

Definition call_member (m : string) : option member :=
  if String.eqb m "resolve" then Some Resolve
  else if String.eqb m "reject" then Some Reject
  else if isFunction (default VUndef (object_prototype !! m))
  then Some Inherited
  else None.

Section Calls.
Context `{Allocator}.

(** [call (spec)], with the current value of the static [timeout].  The
    promise is the next cell of the store; its timer is armed with
    [data.timeout || ServiceProxyClass.timeout]. *)
Definition call (static : value) (spec : value) (sp : ServiceProxyClass)
  : ServiceProxyClass * nat :=
  let p := length (promises sp) in
  let '(k, calls') := push {| promise := p |} (calls sp) in
  let data := set spec "uuid" (VNum (int k)) in
  ({| worker_alive := worker_alive sp;
      outbox := outbox sp ++ [data];
      calls := calls';
      promises := promises sp ++
        [{| uuid := k; delay := js_or (get data "timeout") static;
            state := Pending; next := Plain |}] |}, p).

(** [promise.then (k)] on the promise of a call just placed. *)
Definition and_then (k : continuation) (r : ServiceProxyClass * nat)
  : ServiceProxyClass * nat :=
  ({| worker_alive := worker_alive r.1; outbox := outbox r.1;
      calls := calls r.1;
      promises := alter (set_next k) r.2 (promises r.1) |}, r.2).

(** [terminate ()] *)
Definition terminate (static : value) (sp : ServiceProxyClass)
  : ServiceProxyClass * nat :=
  and_then ThenKill (call static (obj [("method", VStr "onterminate")]) sp).

(** [new ServiceProxyClass (path)] *)
Definition constructor (static : value) (path : string)
  : ServiceProxyClass * nat :=
  and_then ThenProxy
    (call static (obj [("method", VStr "getServiceMethods")])
       {| worker_alive := true; outbox := [];
          calls := newIndexedQueue; promises := [] |}).


(** [onmessage (event)], on [event.data].  A member inherited from
    [Object.prototype] is a function too: it is applied to [undefined] and
    the arguments, where it has no access to the pending calls. *)
Definition onmessage (data : WorkerServiceEventData)
    (sp : ServiceProxyClass) : ServiceProxyClass :=
  if negb (has (data_uuid data) (calls sp)) then sp
  else
    match pop (data_uuid data) (calls sp) with
    | None => sp
    | Some (call, calls') =>
        let sp' :=
          {| worker_alive := worker_alive sp; outbox := outbox sp;
             calls := calls'; promises := promises sp |} in
        match call_member (data_method data) with
        | None => sp'
        | Some f =>
            let args :=
              if isArrayLike (data_args data) then data_args data
              else VArr [] in
            let arg := default VUndef (head (arguments_of args)) in
            match f with
            | Resolve => settle (promise call) (Fulfilled arg) sp'
            | Reject => settle (promise call) (Rejected (Reason arg)) sp'
            | Inherited => sp'
            end
        end
    end.

(** The timer of promise [p] fires.  The timer of a settled promise is
    cleared.  Otherwise the handler given to
    [catch (Promise.TimeoutError, ...)] pops the record of the call and
    rejects again; [None] when [pop] is called out of contract. *)
Definition ontimeout (p : nat) (sp : ServiceProxyClass)
  : option ServiceProxyClass :=
  match promises sp !! p with
  | Some c =>
      match state c with
      | Pending =>
          '(_, calls') ← pop (int (uuid c)) (calls sp);
          Some (settle p (Rejected TimeoutError)
                  {| worker_alive := worker_alive sp; outbox := outbox sp;
                     calls := calls'; promises := promises sp |})
      | _ => Some sp
      end
  | None => Some sp
  end.

End Calls.

(** The state of the promise that [then] returns, for a call in state [s]:
    [terminate ()] fulfils with the result of [kill ()]; the [service] of
    an instance fulfils with the stand-in ([None]: the list received is not
    a [string[]]). *)
Definition strings_of (v : value) : option (list string) :=
  match v with
  | VArr l => mapM (λ x, match x with VStr s => Some s | _ => None end) l
  | _ => None
  end.

Inductive outcome :=
| Waiting
| Done (v : value)
| StandIn (service : gmap string (list value → value))
| Failed (r : reason).

Definition chained (c : cell) : option outcome :=
  match state c, next c with
  | Pending, _ => Some Waiting
  | Rejected r, _ => Some (Failed r)
  | Fulfilled v, Plain => Some (Done v)
  | Fulfilled _, ThenKill => Some (Done VUndef)
  | Fulfilled v, ThenProxy =>
      if isArray v then StandIn ∘ proxy <$> strings_of v
      else Some (Failed (Reason host_type_error))
  end.

End Proxy.

(** ** Statements about the worker side *)

Module WorkerSpec.
Import Js Worker.

(** [msg] is a response that rejects call [uuid] with an error descriptor
    of the given name and message. *)
Definition is_rejection (name message : string) (uuid msg : value) : Prop :=
  get msg "uuid" = uuid ∧ get msg "method" = VStr "reject" ∧
  get (get (get msg "args") "0") "name" = VStr name ∧
  get (get (get msg "args") "0") "message" = VStr message.

(** The worker answers with exactly one message, [msg], and no exception
    escapes. *)
Definition answers {Σ : Type} (r : option (Σ * reaction)) (msg : value)
  : Prop :=
  ∃ σ', r = Some (σ', {| posted := [msg]; uncaught := None |}).

(** A field is present when it is not [undefined]. *)
Definition present (v : value) : bool := negb (isUndefined v).

(** A request that is invalid in the sense of the spec: a [uuid] that is
    not a safe integer, a [method] that is not a string, a [target] that is
    present but not a string, or [args] that are present but not
    array-like. *)
Definition invalid_when_present (data : value) : bool :=
  negb (isSafeInteger (get data "uuid")) ||
  negb (isString (get data "method")) ||
  (present (get data "target") && negb (isString (get data "target"))) ||
  (present (get data "args") && negb (isArrayLike (get data "args"))).

(** The same with "truthy" in place of "present". *)
Definition invalid_when_truthy (data : value) : bool :=
  negb (isSafeInteger (get data "uuid")) ||
  negb (isString (get data "method")) ||
  (truthy (get data "target") && negb (isString (get data "target"))) ||
  (truthy (get data "args") && negb (isArrayLike (get data "args"))).

(** A request that passes both assertions of [callTargetMethod]. *)
Definition well_formed (data : value) : bool :=
  isSafeInteger (get data "uuid") && isValidWorkerServiceMethodCall data.


(** The target is absent (falsy) or names no object held by the
    endpoint: the request is dispatched to the endpoint itself. *)
Definition internal (ws : WorkerServiceClass) (t : value) : bool :=
  match t with
  | VStr k => negb (isObject (this_get ws k))
  | _ => negb (truthy t)
  end.


(** The tables of the service's own members and of its ancestors below
    the root of its prototype chain.  The code takes the root, the object
    whose prototype is [null], for the universal base object, whatever it
    holds. *)
Definition below_base (service : value) : list (gmap string value) :=
  own_properties service :: removelast (prototype_chain service).

(** The exposed method set with the root of the chain in the place of the
    universal base object: the names other than [constructor] that the
    service or one of its ancestors below the root holds, under which the
    service holds a function, and which are in the allow-list when one is
    supplied. *)
Definition exposed (spec : value) (m : string) : Prop :=
  let service := get spec "service" in
  m ≠ "constructor" ∧
  (∃ t, t ∈ below_base service ∧ is_Some (t !! m)) ∧
  isFunction (get service m) = true ∧
  (isArray (get spec "methods") = true →
   VStr m ∈ elements (get spec "methods")).

(** A setup spec that is invalid in the sense of the spec: the worker
    lacks a [postMessage] function, the service is absent or not an object,
    [onterminate] is present but not callable, or [methods] is present but
    not an array of strings. *)
Definition string_array (v : value) : bool :=
  isArray v && forallb isString (elements v).

Definition invalid_spec_when_present (spec : value) : bool :=
  negb (isFunction (get (get spec "worker") "postMessage")) ||
  negb (isObject (get spec "service")) ||
  (present (get spec "onterminate")
   && negb (isFunction (get spec "onterminate"))) ||
  (present (get spec "methods") && negb (string_array (get spec "methods"))).

(** The same with "truthy" in place of "present". *)
Definition invalid_spec_when_truthy (spec : value) : bool :=
  negb (isFunction (get (get spec "worker") "postMessage")) ||
  negb (isObject (get spec "service")) ||
  (truthy (get spec "onterminate")
   && negb (isFunction (get spec "onterminate"))) ||
  (truthy (get spec "methods") && negb (string_array (get spec "methods"))).

End WorkerSpec.

(** ** Sample data: the service of the test suite *)

Module Sample.
Import Js Worker.

Definition sample_worker : value :=
  obj [("postMessage", VFun (Native "postMessage"))].

(** [Object.create (spy)], the methods on the prototype of the instance. *)
Definition sample_service : value :=
  VObj ∅ [list_to_map [("asyncwork", VFun (Code "asyncwork"));
                       ("syncwork", VFun (Code "syncwork"));
                       ("stop", VFun (Code "stop"))];
          object_prototype].

Definition sample_spec : value :=
  obj [("worker", sample_worker); ("service", sample_service);
       ("onterminate", VFun (Code "stop"))].

Definition sample_ws : WorkerServiceClass :=
  {| worker := write sample_worker "onmessage" handler;
     service := sample_service;
     onterminate := VFun (Code "stop");
     methods := ["syncwork"; "stop"; "asyncwork"];
     shared := false |}.

(** [syncwork] returns ['foo'], [asyncwork] resolves to ['foo'], [stop]
    returns nothing; the service keeps a count of the calls it received. *)
Definition sample_run (id : string) (args : list value) (n : nat)
  : behaviour * nat :=
  (if String.eqb id "syncwork" then Returns (VStr "foo")
   else if String.eqb id "asyncwork" then Resolves (VStr "foo")
   else Returns VUndef, S n).

(** A spec whose [onterminate] is present but falsy, and one whose service
    has no prototype ([Object.create (null)]). *)
Definition spec_onterminate_zero : value :=
  obj [("worker", sample_worker); ("service", sample_service);
       ("onterminate", VNum (int 0))].

Definition spec_bare_service : value :=
  obj [("worker", sample_worker); ("service", VObj ∅ [])].

Definition request (target method args : value) : value :=
  obj [("uuid", VNum (int 42)); ("target", target); ("method", method);
       ("args", args)].











(** Specs that inherit a member: the service, and the worker. *)
Definition spec_inherited_service : value :=
  VObj {[ "worker" := sample_worker ]}
       [ {[ "service" := sample_service ]}; object_prototype ].

Definition ws_inherited_service : WorkerServiceClass :=
  {| worker := write sample_worker "onmessage" handler;
     service := VUndef;
     onterminate := VUndef;
     methods := ["syncwork"; "stop"; "asyncwork"];
     shared := false |}.

Definition spec_inherited_worker : value :=
  VObj {[ "service" := sample_service ]}
       [ {[ "worker" := sample_worker ]}; object_prototype ].

End Sample.

(** ** Statements about the main-thread side *)

Module ProxySpec.
Import Js Proxy.

(** The call with key [u] and promise [p] is outstanding: its record is in
    the queue and its promise is pending. *)
Definition outstanding (sp : ServiceProxyClass) (u : Z) (p : nat) : Prop :=
  calls sp !! u = Some {| promise := p |} ∧
  ∃ c, promises sp !! p = Some c ∧ uuid c = u ∧ state c = Pending.

(** The same for the call placed by [terminate ()]. *)
Definition terminating (sp : ServiceProxyClass) (u : Z) (p : nat) : Prop :=
  calls sp !! u = Some {| promise := p |} ∧
  ∃ c, promises sp !! p = Some c ∧ uuid c = u ∧ state c = Pending ∧
       next c = ThenKill.

(** The instance once the record under key [u] is removed. *)
Definition without_record (u : Z) (sp : ServiceProxyClass)
  : ServiceProxyClass :=
  {| worker_alive := worker_alive sp; outbox := outbox sp;
     calls := delete u (calls sp); promises := promises sp |}.

Definition promise_state (sp : ServiceProxyClass) (p : nat) : option pstate :=
  state <$> promises sp !! p.

Definition promise_delay (sp : ServiceProxyClass) (p : nat) : option value :=
  delay <$> promises sp !! p.

(** The state of the promise chained to the promise of call [p]. *)
Definition chained_state (sp : ServiceProxyClass) (p : nat) : option outcome :=
  promises sp !! p ≫= chained.

(** [carries d u s]: [d] is a method result message for the call with key
    [u], its [args] holding the one value or error that [s] settles with. *)
Inductive carries : WorkerServiceEventData → Z → pstate → Prop :=
| carries_resolve n u v :
    key_of n = Some u →
    carries {| data_uuid := n; data_method := "resolve";
               data_args := VArr [v] |} u (Fulfilled v)
| carries_reject n u e :
    key_of n = Some u →
    carries {| data_uuid := n; data_method := "reject";
               data_args := VArr [e] |} u (Rejected (Reason e)).

(** An error descriptor with the name and the message of [e]. *)
Definition same_error (d e : value) : Prop :=
  get d "name" = get e "name" ∧ get d "message" = get e "message".

(** The settlement [s] of the caller's promise is the one the behaviour [b]
    of the service method calls for. *)
Definition agrees (b : behaviour) (s : pstate) : Prop :=
  match b with
  | Returns v | Resolves v => s = Fulfilled v
  | Throws e | Rejects e => ∃ d, s = Rejected (Reason d) ∧ same_error d e
  | Unsettled => False
  end.

(** The behaviours the worker answers: the method settles, and not with a
    [null] or [undefined] error. *)
Definition answered (b : behaviour) : bool :=
  match b with
  | Returns _ | Resolves _ => true
  | Throws e | Rejects e => negb (nullish e)
  | Unsettled => false
  end.

End ProxySpec.

(** ** Further statements *)

Module WorkerMore.
Import Js Worker.

(** The reaction to a call whose method behaves as [b]: one [resolve]
    message, one [reject] message, or none when the promise of the method
    never settles or when [reject] cannot read the error. *)
Definition response_to (uuid : value) (b : behaviour) : reaction :=
  match Promise_try b with
  | Fulfil v => {| posted := [resolve_message uuid v]; uncaught := None |}
  | Fail e =>
      if nullish e
      then {| posted := []; uncaught := Some host_type_error |}
      else {| posted := [reject_message uuid e]; uncaught := None |}
  | Never => {| posted := []; uncaught := None |}
  end.

(** The arguments a request passes: [spec.args || []]. *)
Definition passed (data : value) : list value :=
  arguments_of (js_or (get data "args") (VArr [])).

(** A primitive other than [null] and [undefined]. *)
Definition primitive (v : value) : bool :=
  match v with VBool _ | VNum _ | VStr _ => true | _ => false end.

(** The descriptor [reject] builds from an error that has no [name],
    [message] or [stack]. *)
Definition empty_descriptor : value :=
  obj [("name", VUndef); ("message", VUndef); ("stack", VUndef)].

End WorkerMore.

Module ProxyMore.
Import Js Proxy.

(** What happens to an instance once it is constructed: a call is placed,
    [terminate ()] or [kill ()] is called, a message arrives, or the timer
    of a promise fires. *)
Inductive event :=
| Called (static spec : value)
| Terminated (static : value)
| Received (d : WorkerServiceEventData)
| Fired (p : nat)
| Killed.

Definition places_call (e : event) : bool :=
  match e with Called _ _ | Terminated _ => true | _ => false end.

Definition destroys (e : event) : bool :=
  match e with Terminated _ | Killed => true | _ => false end.

Section Events.
Context `{Allocator}.

(** The instance after one event; [None] when the handler of a timer calls
    [pop] out of contract. *)
Definition handle (e : event) (sp : ServiceProxyClass)
  : option ServiceProxyClass :=
  match e with
  | Called static spec => Some (call static spec sp).1
  | Terminated static => Some (terminate static sp).1
  | Received d => Some (onmessage d sp)
  | Fired p => ontimeout p sp
  | Killed => Some (kill sp)
  end.

Fixpoint after (events : list event) (sp : ServiceProxyClass)
  : option ServiceProxyClass :=
  match events with
  | [] => Some sp
  | e :: rest => handle e sp ≫= after rest
  end.

End Events.

(** No promise carries the continuation of [terminate ()]. *)
Definition no_terminate (sp : ServiceProxyClass) : Prop :=
  ∀ p c, promises sp !! p = Some c → next c ≠ ThenKill.

(** Every record of the queue belongs to a call that is outstanding. *)
Definition records_outstanding (sp : ServiceProxyClass) : Prop :=
  ∀ u r, calls sp !! u = Some r → ProxySpec.outstanding sp u (promise r).

(** The allocator [next_key] never picks a key in use. *)
#[export] Instance next_key_allocator : Allocator.
Proof.
  refine {| fresh := next_key |}.
  intros used Hin.
  assert (∀ x, x ∈ used → (x ≤ set_fold Z.max 0 used)%Z) as Hmax.
  { apply (set_fold_ind_L (λ r X, ∀ x, x ∈ X → (x ≤ r)%Z)).
    - intros x []%not_elem_of_empty.
    - intros y X r Hy IH x [->%elem_of_singleton|Hx]%elem_of_union.
      + apply Z.le_max_l.
      + etransitivity; [by apply IH|apply Z.le_max_r]. }
  apply Hmax in Hin. unfold next_key in Hin. lia.
Defined.

(** How [terminate ()] ends when the [onterminate] handler of the worker
    behaves as [b]: the worker is destroyed and the promise fulfilled, or
    the worker is left as it was and the promise rejected with the error
    of the handler. *)
Definition shut_down (b : behaviour) (before after : bool)
    (o : option outcome) : Prop :=
  match b with
  | Returns _ | Resolves _ => after = false ∧ o = Some (Done VUndef)
  | Throws e | Rejects e =>
      after = before ∧
      ∃ d, o = Some (Failed (Reason d)) ∧ ProxySpec.same_error d e
  | Unsettled => False
  end.

Definition settled (c : cell) : bool :=
  match state c with Pending => false | _ => true end.

(** A new instance, and the same with a call of the method [syncwork]
    placed through the stand-in. *)
Definition sample_proxy : ServiceProxyClass :=
  (constructor timeout "worker.js").1.

Definition sample_call : ServiceProxyClass * nat :=
  call timeout (forward "syncwork" [VStr "foo"; VStr "bar"]) sample_proxy.

End ProxyMore.

Module BothSides.
Import Js.

(** The requests the main thread posts: the call a member of the stand-in
    places, and a call of a reserved method, each with its key. *)
Definition forwarded (m : string) (args : list value) (u : Z) : value :=
  Proxy.set (Proxy.forward m args) "uuid" (VNum (int u)).

Definition reserved (name : string) (u : Z) : value :=
  Proxy.set (obj [("method", VStr name)]) "uuid" (VNum (int u)).

End BothSides.

(** ** Further sample data *)

Module MoreSamples.
Import Js Worker Proxy ProxyMore Sample.

(** A service that holds [syncwork] as a number above a prototype that
    holds it as a function. *)
Definition shadowing_service : value :=
  VObj {[ "syncwork" := VNum (int 1) ]}
       [list_to_map [("asyncwork", VFun (Code "asyncwork"));
                     ("syncwork", VFun (Code "syncwork"))];
        object_prototype].

Definition shadowing_spec : value :=
  obj [("worker", sample_worker); ("service", shadowing_service)].

(** The sample service hooked without [onterminate]. *)
Definition spec_without_handler : value :=
  obj [("worker", sample_worker); ("service", sample_service)].

Definition ws_without_handler : WorkerServiceClass :=
  {| worker := write sample_worker "onmessage" handler;
     service := sample_service;
     onterminate := VUndef;
     methods := ["syncwork"; "stop"; "asyncwork"];
     shared := false |}.

(** A service whose method throws [null]. *)
Definition throwing_run (id : string) (args : list value) (n : nat)
  : behaviour * nat :=
  (Throws VNull, S n).

(** A service whose method throws the string ["oops"]. *)
Definition primitive_run (id : string) (args : list value) (n : nat)
  : behaviour * nat :=
  (Throws (VStr "oops"), S n).

(** Two calls placed one after the other on a new instance. *)
Definition two_calls : ServiceProxyClass :=
  (call timeout (forward "asyncwork" [])
     (call timeout (forward "syncwork" []) sample_proxy).1).1.

Definition response (u : Z) (method : string) (arg : value)
  : WorkerServiceEventData :=
  {| data_uuid := int u; data_method := method; data_args := VArr [arg] |}.

End MoreSamples.

(** * Proofs *)

(** ** Facts about values *)

Module JsFacts.
Import Js.

Lemma get_VObj own protos k :
  get (VObj own protos) k =
  match own !! k with
  | Some v => v
  | None => default VUndef (lookup_chain k protos)
  end.
Proof. unfold get. simpl. by destruct (own !! k). Qed.

Lemma get_not_object v k : isObject v = false → get v k = VUndef.
Proof.
  destruct v; try done; intros _; unfold get; simpl; by rewrite lookup_empty.
Qed.

Lemma isObject_not_nullish v : isObject v = true → nullish v = false.
Proof. by destruct v. Qed.

Lemma isFunction_get_isObject v k :
  isFunction (get v k) = true → isObject v = true.
Proof.
  destruct (isObject v) eqn:Hv; [done|]. by rewrite get_not_object.
Qed.

Lemma new_error_not_nullish errType message :
  nullish (new_error errType message) = false.
Proof. done. Qed.

Lemma new_error_name errType message :
  get (new_error errType message) "name" = VStr errType.
Proof.
  unfold new_error, error_chain.
  destruct (String.eqb_spec errType "Error") as [->|Hne]; reflexivity.
Qed.

Lemma new_error_message errType message :
  get (new_error errType message) "message" = VStr message.
Proof. reflexivity. Qed.

Lemma elem_of_keys {A} (t : gmap string A) m :
  m ∈ (map_to_list t).*1 ↔ is_Some (t !! m).
Proof.
  rewrite list_elem_of_fmap. split.
  - intros ([k x] & -> & Hin%elem_of_map_to_list). by exists x.
  - intros [x Hx]. exists (m, x). by rewrite elem_of_map_to_list.
Qed.

Lemma elem_of_getOwnPropertyNames v m :
  m ∈ getOwnPropertyNames v ↔ is_Some (own_properties v !! m).
Proof. apply elem_of_keys. Qed.

End JsFacts.

(** ** The worker side *)

Module WorkerFacts.
Import Js Worker WorkerSpec JsFacts.

#[local] Arguments get : simpl never.

#[local] Ltac bool_cases :=
  repeat match goal with
    | H : _ && _ = true |- _ => apply andb_prop in H as [? ?]
    | H : _ || _ = true |- _ => apply orb_prop in H as [?|?]
    | H : negb _ = true |- _ => apply negb_true_iff in H
    end.

(** *** Setup *)

Lemma hookService_inv same spec slot ws :
  hookService same spec slot = (Ok tt, Some ws) →
  isValidServiceBinderSpec spec = true ∧
  ∃ names,
    getPropertyNames None (own_properties (get spec "service"))
      (prototype_chain (get spec "service")) = Ok names ∧
    constructor same (spread spec)
      (filter (λ val, negb (truthy (get spec "methods"))
                      || includes (get spec "methods") val)
         (filter (λ val, isFunction (get (get spec "service") val)) names))
    = Ok ws.
Proof.
  unfold hookService, assert.
  destruct (isValidServiceBinderSpec spec); simpl; [|intros [=]].
  destruct (getPropertyNames _ _ _) as [names|e]; simpl; [|intros [=]].
  destruct (constructor _ _ _) as [ws'|e] eqn:Hc; intros [= <-]. eauto.
Qed.

Lemma constructor_inv same config methods ws :
  constructor same config methods = Ok ws →
  nullish (get config "worker") = false ∧
  ws = {| worker := write (get config "worker") "onmessage" handler;
          service :=
            if same && isObject (get config "service")
            then write (get config "worker") "onmessage" handler
            else get config "service";
          onterminate := get config "onterminate";
          methods := methods;
          shared := same && isObject (get config "service") |}.
Proof.
  unfold constructor. destruct (nullish (get config "worker")); [done|].
  by intros [= <-].
Qed.

(** A member the copy of a spec holds is the member the spec holds under
    the same name. *)
Lemma spread_get spec k :
  object_prototype !! k = None →
  nullish (get (spread spec) k) = false →
  get (spread spec) k = get spec k.
Proof.
  intros Hk. unfold get.
  destruct spec as [| |b|n|s|f|l|own protos];
    cbn [spread obj own_properties prototype_chain lookup_chain];
    rewrite ?lookup_empty, ?Hk; try done.
  - destruct (decide (k = "length")) as [->|Hne].
    + by rewrite lookup_delete_eq.
    + rewrite lookup_delete_ne by done.
      destruct (<["length":=_]> _ !! k) as [v|]; [done|].
      intros Hn. by cbv [default from_option id nullish] in Hn.
  - by destruct (own !! k).
Qed.

(** A member the spec holds as its own is in the copy. *)
Lemma spread_own spec k :
  k ≠ "length" →
  is_Some (own_properties spec !! k) →
  get (spread spec) k = get spec k.
Proof.
  intros Hk [v Hv]. unfold get.
  destruct spec as [| |b|n|s|f|l|own protos];
    cbn [spread obj own_properties prototype_chain lookup_chain] in *;
    rewrite ?lookup_empty in Hv; try done.
  - by rewrite lookup_delete_ne, Hv.
  - by rewrite Hv.
Qed.

Lemma get_write_other o k k' v :
  k ≠ k' → get (write o k v) k' = get o k'.
Proof.
  intros Hne. destruct o; try done.
  unfold get. simpl. by rewrite lookup_insert_ne.
Qed.

Lemma isObject_write o k v : isObject (write o k v) = isObject o.
Proof. by destruct o. Qed.

Lemma valid_worker spec :
  isValidServiceBinderSpec spec = true → isObject (get spec "worker") = true.
Proof.
  unfold isValidServiceBinderSpec, isWorkerGlobalScope. intros Hv.
  by bool_cases.
Qed.

(** An instance set up by [hookService] can post. *)
Lemma hooked_worker same spec slot ws :
  hookService same spec slot = (Ok tt, Some ws) →
  isWorkerGlobalScope (worker ws) = true.
Proof.
  intros (Hv & names & _ & [Hn ->]%constructor_inv)%hookService_inv.
  cbn [worker]. rewrite (spread_get spec "worker") by done.
  unfold isValidServiceBinderSpec, isWorkerGlobalScope in *.
  bool_cases; rewrite isObject_write, get_write_other by done;
    by apply andb_true_intro.
Qed.

(** The fields of the instance: the own members of the spec. *)
Lemma hooked_onterminate same spec slot ws :
  hookService same spec slot = (Ok tt, Some ws) →
  isObject (onterminate ws) = false.
Proof.
  intros (Hv & names & _ & [Hn ->]%constructor_inv)%hookService_inv.
  cbn [onterminate].
  destruct (nullish (get (spread spec) "onterminate")) eqn:Ht.
  { by destruct (get (spread spec) "onterminate"). }
  rewrite (spread_get spec "onterminate") by done.
  unfold isValidServiceBinderSpec in Hv.
  apply andb_prop in Hv as [Hv _]. apply andb_prop in Hv as [_ Hv].
  unfold isObject, isFunction in *.
  destruct (truthy (get spec "onterminate")); [|done].
  cbn [negb orb andb] in *. apply bool_decide_eq_true in Hv.
  apply bool_decide_eq_false. congruence.
Qed.

Lemma invalid_spec_when_truthy_spec spec :
  invalid_spec_when_truthy spec = negb (isValidServiceBinderSpec spec).
Proof.
  unfold invalid_spec_when_truthy, isValidServiceBinderSpec,
    isValidMethodsOption, isWorkerGlobalScope, string_array.
  destruct (isObject spec) eqn:Hs.
  - destruct (isFunction (get (get spec "worker") "postMessage")) eqn:Hp.
    + rewrite (isFunction_get_isObject _ _ Hp). simpl.
      by destruct (isObject (get spec "service")),
           (truthy (get spec "onterminate")),
           (isFunction (get spec "onterminate")),
           (truthy (get spec "methods")), (isArray (get spec "methods")),
           (forallb isString (elements (get spec "methods"))).
    + by rewrite andb_false_r.
  - by rewrite (get_not_object spec "worker").
Qed.

Lemma foldl_mark_lookup (l : list string) (init : gmap string bool) m :
  is_Some (foldl mark init l !! m)
  ↔ is_Some (init !! m) ∨ (m ≠ "__proto__" ∧ m ∈ l).
Proof.
  revert init. induction l as [|k l IH]; intros init; simpl.
  - rewrite elem_of_nil. tauto.
  - rewrite IH, elem_of_cons. unfold mark.
    destruct (String.eqb_spec k "__proto__") as [->|Hk].
    + naive_solver.
    + rewrite lookup_insert_is_Some'. naive_solver.
Qed.

Lemma isObjectPrototype_chain p rest :
  isObjectPrototype (VObj p rest) = bool_decide (rest = []).
Proof. by destruct rest. Qed.

(** The names [getPropertyNames] returns: those gathered before, and the
    names other than [constructor] of the object and of its ancestors
    below the root of the chain. *)
Lemma getPropertyNames_spec protos : ∀ this own names,
  getPropertyNames this own protos = Ok names →
  NoDup names ∧
  ∀ m, m ∈ names ↔
    is_Some (default ∅ this !! m) ∨
    (m ≠ "constructor" ∧ m ≠ "__proto__" ∧
     ∃ t, t ∈ own :: removelast protos ∧ is_Some (t !! m)).
Proof.
  induction protos as [|p rest IH]; intros this own names; [done|].
  cbn [getPropertyNames]. rewrite isObjectPrototype_chain.
  set (keys := foldl _ _ _).
  assert (∀ m, is_Some (keys !! m) ↔
            is_Some (default ∅ this !! m) ∨
            (m ≠ "constructor" ∧ m ≠ "__proto__" ∧ is_Some (own !! m)))
    as Hkeys.
  { intros m. unfold keys. rewrite foldl_mark_lookup, list_elem_of_filter.
    rewrite elem_of_getOwnPropertyNames. tauto. }
  case_bool_decide as Hrest.
  - subst rest. intros [= <-]. split; [apply NoDup_fst_map_to_list|].
    intros m. rewrite elem_of_keys, Hkeys.
    simpl. setoid_rewrite list_elem_of_singleton. naive_solver.
  - intros [Hnd Hin]%IH. split; [done|]. intros m. rewrite Hin. simpl.
    rewrite Hkeys. destruct rest as [|q rest]; [done|].
    setoid_rewrite (elem_of_cons (p :: _)). naive_solver.
Qed.

(** The walk ends normally as soon as the object has a prototype. *)
Lemma getPropertyNames_total protos : ∀ this own,
  protos ≠ [] → ∃ names, getPropertyNames this own protos = Ok names.
Proof.
  induction protos as [|p rest IH]; intros this own Hne; [done|].
  cbn [getPropertyNames]. rewrite isObjectPrototype_chain.
  case_bool_decide; eauto.
Qed.

Lemma includes_elem_of arr m :
  includes arr m = true ↔ VStr m ∈ elements arr.
Proof.
  unfold includes. rewrite existsb_exists. split.
  - intros (x & Hin%list_elem_of_In & Hx). destruct x; try done.
    by apply String.eqb_eq in Hx as ->.
  - intros Hin. exists (VStr m). rewrite <-list_elem_of_In.
    by rewrite String.eqb_refl.
Qed.

Lemma allow_list spec m :
  isValidMethodsOption (get spec "methods") = true →
  negb (truthy (get spec "methods")) || includes (get spec "methods") m = true
  ↔ (isArray (get spec "methods") = true →
     VStr m ∈ elements (get spec "methods")).
Proof.
  unfold isValidMethodsOption. rewrite <-includes_elem_of.
  destruct (get spec "methods") as [| |b|n|s|f|l|own protos]; simpl;
    intros Hv; (split; [intros Hm|intros Hm]);
    try done; try discriminate; try (by apply Hm); by intros _.
Qed.

Lemma hooked_methods same spec slot ws :
  hookService same spec slot = (Ok tt, Some ws) →
  NoDup (methods ws) ∧
  ∀ m, m ∈ methods ws ↔ m ≠ "__proto__" ∧ exposed spec m.
Proof.
  intros (Hv & names & Hnames & [_ ->]%constructor_inv)%hookService_inv.
  apply getPropertyNames_spec in Hnames as [Hnd Hin].
  assert (isValidMethodsOption (get spec "methods") = true) as Hopt.
  { unfold isValidServiceBinderSpec in Hv.
    by apply andb_prop in Hv as [_ ?]. }
  simpl. split; [by do 2 apply NoDup_filter|].
  intros m. rewrite !list_elem_of_filter, Hin. unfold exposed, below_base.
  simpl. rewrite lookup_empty.
  rewrite !Is_true_true, allow_list by done.
  split.
  - intros (? & ? & [[]%is_Some_None|(? & ? & ?)]). by repeat split.
  - intros (? & ? & ? & ? & ?). repeat split; auto.
Qed.


(** *** Dispatch *)

Lemma postMessage_hooked ws msg :
  isWorkerGlobalScope (worker ws) = true → postMessage ws msg = Ok [msg].
Proof.
  unfold isWorkerGlobalScope, postMessage. intros [Ho Hf]%andb_prop.
  by rewrite (isObject_not_nullish _ Ho), Hf.
Qed.

Lemma reject_message_is_rejection uuid errType message :
  is_rejection errType message uuid
    (reject_message uuid (new_error errType message)).
Proof.
  repeat split; try reflexivity.
  change (get (get (get (reject_message uuid (new_error errType message))
                      "args") "0") "name")
    with (get (new_error errType message) "name").
  apply new_error_name.
Qed.

Lemma well_formed_not_nullish data :
  well_formed data = true → nullish data = false.
Proof.
  unfold well_formed, isValidWorkerServiceMethodCall. intros.
  bool_cases; by apply isObject_not_nullish.
Qed.

Lemma select_target_service ws data :
  isObject (service ws) = true →
  get data "target" = VStr "service" →
  select_target ws data = Some Service.
Proof.
  intros Ho Ht. unfold select_target. rewrite Ht.
  change (this_get ws "service") with (service ws). by rewrite Ho.
Qed.

Lemma select_target_internal ws data :
  internal ws (get data "target") = true →
  select_target ws data = Some This.
Proof.
  unfold internal, select_target.
  destruct (get data "target"); try done.
  by intros ->%negb_true_iff.
Qed.

Section Reactions.
Context {Σ : Type} (run : string → list value → Σ → behaviour * Σ).

(** The response to a call that is fulfilled, and to one that fails. *)
Lemma onmessage_fulfil ws data σ σ' v msgs :
  isWorkerGlobalScope (worker ws) = true →
  nullish data = false →
  callTargetMethod run ws data σ = Some (σ', Fulfil v, msgs) →
  onmessage run ws data σ
    = Some (σ', {| posted := msgs ++ [resolve_message (get data "uuid") v];
                   uncaught := None |}).
Proof.
  intros Hw Hn Hc. unfold onmessage. rewrite Hn, Hc. simpl.
  unfold resolve. by rewrite postMessage_hooked.
Qed.

Lemma onmessage_fail ws data σ σ' e msgs :
  isWorkerGlobalScope (worker ws) = true →
  nullish data = false →
  nullish e = false →
  callTargetMethod run ws data σ = Some (σ', Fail e, msgs) →
  onmessage run ws data σ
    = Some (σ', {| posted := msgs ++ [reject_message (get data "uuid") e];
                   uncaught := None |}).
Proof.
  intros Hw Hn He Hc. unfold onmessage. rewrite Hn, Hc. simpl.
  unfold reject. rewrite He. by rewrite postMessage_hooked.
Qed.

Lemma callTargetMethod_selected ws data σ t f :
  well_formed data = true →
  select_method ws data = Some (t, f) →
  callTargetMethod run ws data σ
  = ('(σ', b, msgs) ←
       apply run ws f t (arguments_of (js_or (get data "args") (VArr []))) σ;
     Some (σ', Promise_try b, msgs)).
Proof.
  unfold well_formed, callTargetMethod, assert. intros [-> ->]%andb_prop Hs.
  cbn -[select_method]. by rewrite Hs.
Qed.

Lemma invalid_when_truthy_fails ws data σ :
  invalid_when_truthy data = true →
  callTargetMethod run ws data σ
    = Some (σ, Fail (new_error "TypeError" "invalid argument"), []).
Proof.
  unfold invalid_when_truthy, callTargetMethod, assert. intros Hbad.
  destruct (isSafeInteger (get data "uuid")) eqn:Hu; simpl; [|done].
  assert (isValidWorkerServiceMethodCall data = false) as ->; [|done].
  unfold isValidWorkerServiceMethodCall. simpl in Hbad.
  destruct (isObject data), (isString (get data "method")),
    (truthy (get data "target")), (isString (get data "target")),
    (truthy (get data "args")), (isArrayLike (get data "args"));
    simpl in *; done.
Qed.

Lemma unknown_method_fails ws data σ t :
  well_formed data = true →
  select_method ws data = Some (t, VFun (Own Munknown)) →
  callTargetMethod run ws data σ
    = Some (σ, Fail (new_error "Error" "unknown method"), []).
Proof.
  intros Hwf Hs. by rewrite (callTargetMethod_selected _ _ _ _ _ Hwf Hs).
Qed.

Lemma getServiceMethods_resolves ws data σ :
  isWorkerGlobalScope (worker ws) = true →
  well_formed data = true →
  internal ws (get data "target") = true →
  get data "method" = VStr "getServiceMethods" →
  onmessage run ws data σ
    = Some (σ, {| posted := [resolve_message (get data "uuid")
                               (VArr (VStr <$> methods ws))];
                  uncaught := None |}).
Proof.
  intros Hw Hwf Hint Hm.
  apply (onmessage_fulfil ws data σ σ (VArr (VStr <$> methods ws)) []);
    [done|by apply well_formed_not_nullish|].
  rewrite (callTargetMethod_selected ws data σ This
             (VFun (Own MgetServiceMethods))); [done..|].
  unfold select_method. rewrite select_target_internal by done.
  by rewrite Hm.
Qed.

End Reactions.

Lemma sample_hooked :
  hookService false Sample.sample_spec None
  = (Ok tt, Some Sample.sample_ws).
Proof. vm_compute. reflexivity. Qed.

End WorkerFacts.

Module WorkerTheorems.
Import Js Worker WorkerSpec WorkerFacts JsFacts Sample.

(** C5 as the spec words it does not hold: a request whose [args] are
    present but falsy (here [0]) is not rejected; the service method is
    called without arguments and its result is sent back. *)
Lemma falsy_args_served :
  invalid_when_present
    (request (VStr "service") (VStr "syncwork") (VNum (int 0))) = true ∧
  onmessage sample_run sample_ws
    (request (VStr "service") (VStr "syncwork") (VNum (int 0))) 0
  = Some (1, {| posted := [resolve_message (VNum (int 42)) (VStr "foo")];
                uncaught := None |}) ∧
  ¬ ∃ msg,
      answers (onmessage sample_run sample_ws
                 (request (VStr "service") (VStr "syncwork") (VNum (int 0))) 0)
        msg ∧
      is_rejection "TypeError" "invalid argument" (VNum (int 42)) msg.
Proof.
  split; [reflexivity|]. split; [reflexivity|].
  intros (msg & [σ' Hr] & _ & Hm & _).
  vm_compute in Hr. injection Hr as _ <-. vm_compute in Hm. discriminate.
Qed.

(** C5 (amended): every request other than [null] and [undefined] whose
    [uuid] is not a safe integer, or whose [method] is not a string, or
    whose [target] is truthy but not a string, or whose [args] are truthy
    but not array-like, is answered by exactly one message: a rejection
    with name [TypeError] and message [invalid argument] that carries the
    [uuid] of the request unchanged.  The service is not called. *)
Theorem invalid_request_rejected {Σ : Type}
    (run : string → list value → Σ → behaviour * Σ)
    same spec slot ws data σ :
  hookService same spec slot = (Ok tt, Some ws) →
  nullish data = false →
  invalid_when_truthy data = true →
  ∃ msg,
    onmessage run ws data σ
      = Some (σ, {| posted := [msg]; uncaught := None |}) ∧
    is_rejection "TypeError" "invalid argument" (get data "uuid") msg.
Proof.
  intros Hw%hooked_worker Hn Hbad.
  eexists. split.
  - apply (onmessage_fail run ws data σ σ
             (new_error "TypeError" "invalid argument") []); [done..|].
    by apply invalid_when_truthy_fails.
  - apply reject_message_is_rejection.
Qed.

Lemma invalid_request_rejected_witness :
  ∃ msg,
    onmessage sample_run sample_ws
      (request (VNum (int 64)) (VStr "syncwork") (VArr [])) 0
      = Some (0, {| posted := [msg]; uncaught := None |}) ∧
    is_rejection "TypeError" "invalid argument" (VNum (int 42)) msg.
Proof.
  apply (invalid_request_rejected sample_run false sample_spec None sample_ws
           (request (VNum (int 64)) (VStr "syncwork") (VArr [])) 0).
  - vm_compute. reflexivity.
  - reflexivity.
  - reflexivity.
Defined.







(** C8 as the spec words it does not hold, in both directions.  A spec
    whose [onterminate] is present but falsy (here [0]) is accepted, and a
    handler is installed.  A spec that passes validation but whose service
    has no prototype makes [hookService] throw, with another message, and
    no handler is installed. *)
Lemma falsy_onterminate_accepted :
  invalid_spec_when_present spec_onterminate_zero = true ∧
  hookService false spec_onterminate_zero None
  = (Ok tt, Some {| worker := write sample_worker "onmessage" handler;
                    service := sample_service;
                    onterminate := VNum (int 0);
                    methods := ["syncwork"; "stop"; "asyncwork"];
                    shared := false |}) ∧
  invalid_spec_when_present spec_bare_service = false ∧
  hookService false spec_bare_service None = (Throw host_type_error, None).
Proof. repeat split; vm_compute; reflexivity. Qed.

(** C8 (amended): [hookService] throws a [TypeError] with message
    [invalid argument], and leaves the [onmessage] slot of the worker as it
    was, whenever the worker lacks a [postMessage] function, or the service
    is absent or not an object, or [onterminate] is truthy but not
    callable, or [methods] is truthy but not an array of strings; for every
    other spec that holds its worker as an own member and whose service
    has a prototype it installs a handler and does not throw. *)
Theorem hookService_validation same spec slot :
  (invalid_spec_when_truthy spec = true →
   ∃ e, hookService same spec slot = (Throw e, slot) ∧
        get e "name" = VStr "TypeError" ∧
        get e "message" = VStr "invalid argument") ∧
  (invalid_spec_when_truthy spec = false →
   prototype_chain (get spec "service") ≠ [] →
   is_Some (own_properties spec !! "worker") →
   ∃ ws, hookService same spec slot = (Ok tt, Some ws)).
Proof.
  rewrite invalid_spec_when_truthy_spec. unfold hookService, assert.
  split.
  - intros ->%negb_true_iff. simpl. eauto.
  - intros Hv%negb_false_iff Hchain Hown. rewrite Hv. simpl.
    destruct (getPropertyNames_total _ None
                (own_properties (get spec "service")) Hchain)
      as [names ->].
    cbn [mbind result_bind]. unfold constructor.
    rewrite (spread_own spec "worker") by done.
    rewrite (isObject_not_nullish _ (valid_worker _ Hv)). eauto.
Qed.

Lemma hookService_validation_witness :
  (∃ e, hookService false (VNum (int 42)) None = (Throw e, None) ∧
        get e "name" = VStr "TypeError" ∧
        get e "message" = VStr "invalid argument") ∧
  (∃ ws, hookService false sample_spec None = (Ok tt, Some ws)).
Proof.
  split.
  - apply (hookService_validation false (VNum (int 42)) None). reflexivity.
  - apply (hookService_validation false sample_spec None).
    + reflexivity.
    + discriminate.
    + by eexists.
Defined.

End WorkerTheorems.

(** ** The main-thread side *)

Module ProxyFacts.
Import Js Proxy ProxySpec ProxyMore JsFacts.

#[local] Arguments get : simpl never.

(** *** The queue *)

Lemma key_of_int u : key_of (int u) = Some u.
Proof.
  unfold key_of, int.
  change (is_integer (inject_Z u)) with (u mod 1 =? 0)%Z.
  by rewrite Z.mod_1_r, Qfloor_Z.
Qed.

Section Queue.
Context `{Allocator} {T : Type}.
Implicit Types q : gmap Z T.

Lemma has_true n q :
  has n q = true ↔ ∃ k r, key_of n = Some k ∧ q !! k = Some r.
Proof.
  unfold has. destruct (key_of n) as [k|].
  - rewrite bool_decide_eq_true. split.
    + intros [r Hr]. eauto.
    + intros (k' & r & [= <-] & Hr). eauto.
  - split; [done|]. by intros (k & r & [=] & _).
Qed.

Lemma has_key n k q :
  key_of n = Some k → has n q = bool_decide (is_Some (q !! k)).
Proof. unfold has. by intros ->. Qed.

Lemma pop_key n k r q :
  key_of n = Some k → q !! k = Some r → pop n q = Some (r, delete k q).
Proof. unfold pop. intros -> Hr. simpl. by rewrite Hr. Qed.

Lemma push_fresh r q :
  push r q = (fresh (dom q), <[fresh (dom q) := r]> q) ∧
  q !! fresh (dom q) = None.
Proof. split; [done|]. apply not_elem_of_dom, fresh_unused. Qed.

End Queue.

(** *** Settling a promise *)

Lemma settle_calls p s sp : calls (settle p s sp) = calls sp.
Proof.
  unfold settle. destruct (promises sp !! p) as [c|]; [|done].
  destruct (state c); try done. by destruct (next c), s.
Qed.

Lemma settle_outbox p s sp : outbox (settle p s sp) = outbox sp.
Proof.
  unfold settle. destruct (promises sp !! p) as [c|]; [|done].
  destruct (state c); try done. by destruct (next c), s.
Qed.

Lemma settle_pending p s sp c :
  promises sp !! p = Some c → state c = Pending →
  promises (settle p s sp) = <[p := set_state s c]> (promises sp).
Proof.
  unfold settle. intros -> ->. by destruct (next c), s.
Qed.

Lemma settle_lookup_eq p s sp c :
  promises sp !! p = Some c → state c = Pending →
  promises (settle p s sp) !! p = Some (set_state s c).
Proof.
  intros Hc Hs. rewrite (settle_pending _ _ _ _ Hc Hs).
  apply list_lookup_insert_eq. by eapply lookup_lt_Some.
Qed.

Lemma settle_lookup_ne p p' s sp :
  p ≠ p' → promises (settle p s sp) !! p' = promises sp !! p'.
Proof.
  intros Hne. unfold settle. destruct (promises sp !! p) as [c|] eqn:Hc; [|done].
  destruct (state c) eqn:Hs; try done.
  assert (∀ sp', promises sp'
            = <[p := set_state s c]> (promises sp) →
          promises sp' !! p' = promises sp !! p') as Hgo.
  { intros sp' ->. by apply list_lookup_insert_ne. }
  by destruct (next c), s; apply Hgo.
Qed.

Lemma settle_alive p s sp c :
  promises sp !! p = Some c → state c = Pending →
  worker_alive (settle p s sp)
  = match next c, s with
    | ThenKill, Fulfilled _ => false
    | _, _ => worker_alive sp
    end.
Proof. unfold settle. intros -> ->. by destruct (next c), s. Qed.

(** *** Responses *)

Lemma get_array_length l : get (VArr l) "length" = array_length l.
Proof.
  unfold get. cbn [own_properties lookup_chain].
  by rewrite lookup_insert_eq.
Qed.

Lemma isArrayLike_array l : isArrayLike (VArr l) = true.
Proof. unfold isArrayLike. by rewrite get_array_length. Qed.

Section Responses.
Context `{Allocator}.

(** A response for an outstanding call removes the record of the call and
    settles its promise. *)
Lemma onmessage_carries d u s sp p :
  carries d u s →
  calls sp !! u = Some {| promise := p |} →
  onmessage d sp = settle p s (without_record u sp).
Proof.
  intros Hd Hu. unfold onmessage.
  destruct Hd as [n u v Hn|n u e Hn]; simpl;
    rewrite (has_key _ _ _ Hn), Hu, bool_decide_eq_true_2 by eauto;
    simpl; rewrite (pop_key _ _ _ _ Hn Hu); reflexivity.
Qed.

(** A message whose key holds no record is ignored. *)
Lemma onmessage_absent d u sp :
  key_of (data_uuid d) = Some u → calls sp !! u = None →
  onmessage d sp = sp.
Proof.
  intros Hn Hu. unfold onmessage.
  by rewrite (has_key _ _ _ Hn), Hu, bool_decide_eq_false_2
    by (by intros [? ?]).
Qed.

Lemma call_member_resolve m : call_member m = Some Resolve → m = "resolve".
Proof.
  unfold call_member. destruct (String.eqb_spec m "resolve"); [done|].
  destruct (String.eqb m "reject"); [done|]. by destruct (isFunction _).
Qed.

Lemma call_member_reject m : call_member m = Some Reject → m = "reject".
Proof.
  unfold call_member. destruct (String.eqb m "resolve"); [done|].
  destruct (String.eqb_spec m "reject"); [done|]. by destruct (isFunction _).
Qed.

(** *** Placing a call *)

Lemma call_spec static spec sp :
  call static spec sp
  = ({| worker_alive := worker_alive sp;
        outbox := outbox sp
                  ++ [set spec "uuid" (VNum (int (fresh (dom (calls sp)))))];
        calls := <[fresh (dom (calls sp))
                   := {| promise := length (promises sp) |}]> (calls sp);
        promises := promises sp ++
          [{| uuid := fresh (dom (calls sp));
              delay :=
                js_or (get (set spec "uuid"
                              (VNum (int (fresh (dom (calls sp))))))
                         "timeout") static;
              state := Pending; next := Plain |}] |},
     length (promises sp)).
Proof. reflexivity. Qed.

Lemma get_set_other spec k k' v :
  k ≠ k' → get (set spec k v) k' = get spec k'.
Proof.
  intros Hne. destruct spec; try done.
  unfold get. simpl. by rewrite lookup_insert_ne.
Qed.

Lemma call_outstanding static spec sp :
  outstanding (call static spec sp).1 (fresh (dom (calls sp)))
    (call static spec sp).2.
Proof.
  rewrite call_spec. unfold outstanding. cbn [fst snd calls promises]. split.
  - by rewrite lookup_insert_eq.
  - eexists. split; [apply list_lookup_middle; reflexivity|done].
Qed.

Lemma call_delay static spec sp :
  promise_delay (call static spec sp).1 (call static spec sp).2
  = Some (js_or (get spec "timeout") static).
Proof.
  rewrite !call_spec. unfold promise_delay.
  cbn [fst snd promises]. rewrite list_lookup_middle by done. simpl.
  by rewrite get_set_other.
Qed.

(** *** The timer *)

Lemma ontimeout_outstanding sp u p :
  outstanding sp u p →
  ontimeout p sp
  = Some (settle p (Rejected TimeoutError) (without_record u sp)).
Proof.
  intros [Hu (c & Hc & <- & Hs)]. unfold ontimeout.
  rewrite Hc, Hs. by rewrite (pop_key _ _ _ _ (key_of_int _) Hu).
Qed.

End Responses.

End ProxyFacts.

(** ** Further facts about the worker side *)

Module WorkerMoreFacts.
Import Js Worker WorkerSpec WorkerMore JsFacts WorkerFacts.

#[local] Arguments get : simpl never.

Lemma isSafeInteger_int z :
  isSafeInteger (VNum (int z)) = bool_decide (Z.abs z ≤ max_safe_integer)%Z.
Proof.
  unfold isSafeInteger, int.
  change (is_integer (inject_Z z)) with (z mod 1 =? 0)%Z.
  rewrite Z.mod_1_r, Qfloor_Z. simpl.
  destruct (Z.leb_spec (Z.abs z) max_safe_integer);
    by rewrite ?bool_decide_eq_true_2, ?bool_decide_eq_false_2 by lia.
Qed.

Section Reactions.
Context {Σ : Type} (run : string → list value → Σ → behaviour * Σ).

(** A request for which [callTargetMethod] selects a function of the
    service author runs that function, and the reaction follows its
    behaviour. *)
Lemma code_call_reaction ws data σ t id :
  isWorkerGlobalScope (worker ws) = true →
  well_formed data = true →
  select_method ws data = Some (t, VFun (Code id)) →
  onmessage run ws data σ
  = Some ((run id (passed data) σ).2,
          response_to (get data "uuid") (run id (passed data) σ).1).
Proof.
  intros Hw Hwf Hsel. unfold onmessage.
  rewrite (well_formed_not_nullish _ Hwf).
  rewrite (callTargetMethod_selected run ws data σ t (VFun (Code id)))
    by done.
  unfold apply, response_to, passed.
  destruct (run id _ σ) as [b σ']. cbn [mbind option_bind fst snd].
  destruct (Promise_try b) as [v|e|]; [| |done].
  - unfold resolve. by rewrite postMessage_hooked.
  - unfold reject. destruct (nullish e); [done|].
    by rewrite postMessage_hooked.
Qed.

Lemma select_method_service ws data :
  isObject (service ws) = true →
  get data "target" = VStr "service" →
  string_of (get data "method") ∈ methods ws →
  select_method ws data
  = Some (Service, get (service ws) (string_of (get data "method"))).
Proof.
  intros Hs Ht Hm. unfold select_method.
  rewrite select_target_service by done. cbn [mbind option_bind].
  by rewrite bool_decide_eq_true_2.
Qed.

Lemma select_method_internal ws data :
  internal ws (get data "target") = true →
  select_method ws data
  = Some (This,
          if isFunction (this_get ws (string_of (get data "method")))
          then this_get ws (string_of (get data "method"))
          else VFun (Own Munknown)).
Proof.
  intros Ht. unfold select_method. by rewrite select_target_internal.
Qed.

(** A request for which [unknown] is selected. *)
Lemma unknown_reaction ws data σ t :
  isWorkerGlobalScope (worker ws) = true →
  well_formed data = true →
  select_method ws data = Some (t, VFun (Own Munknown)) →
  onmessage run ws data σ
  = Some (σ, {| posted := [reject_message (get data "uuid")
                             (new_error "Error" "unknown method")];
                uncaught := None |}).
Proof.
  intros Hw Hwf Hsel.
  apply (onmessage_fail run ws data σ σ
           (new_error "Error" "unknown method") []);
    [done|by apply well_formed_not_nullish|done|].
  by apply unknown_method_fails with t.
Qed.

(** A request that names the method [resolve] of the endpoint. *)
Lemma resolve_request_reaction ws data σ args :
  isWorkerGlobalScope (worker ws) = true →
  well_formed data = true →
  internal ws (get data "target") = true →
  get data "method" = VStr "resolve" →
  get data "args" = VArr args →
  onmessage run ws data σ
  = Some (σ, {| posted := [resolve_message (get (VArr args) "0")
                             (get (VArr args) "1");
                           resolve_message (get data "uuid") VUndef];
                uncaught := None |}).
Proof.
  intros Hw Hwf Hint Hm Ha.
  apply (onmessage_fulfil run ws data σ σ VUndef
           [resolve_message (get (VArr args) "0") (get (VArr args) "1")]);
    [done|by apply well_formed_not_nullish|].
  rewrite (callTargetMethod_selected run ws data σ This
             (VFun (Own Mresolve)));
    [|done|unfold select_method; rewrite select_target_internal by done;
           by rewrite Hm].
  rewrite Ha. unfold js_or. cbn [truthy arguments_of apply].
  unfold resolve. by rewrite postMessage_hooked.
Qed.

End Reactions.

(** A valid spec whose service has no prototype. *)
Lemma hookService_bare same spec slot :
  isValidServiceBinderSpec spec = true →
  prototype_chain (get spec "service") = [] →
  hookService same spec slot = (Throw host_type_error, slot).
Proof.
  intros Hv Hc. unfold hookService, assert. rewrite Hv, Hc. reflexivity.
Qed.

(** A member that the service itself holds as something else than a
    function hides whatever its prototypes hold under that name. *)
Lemma own_member_first v k x :
  own_properties v !! k = Some x → get v k = x.
Proof. intros Hx. unfold get. cbn [lookup_chain]. by rewrite Hx. Qed.

End WorkerMoreFacts.

(** *** The arguments of a call *)

Module ArgumentFacts.
Import Js Worker WorkerMore JsFacts.

#[local] Arguments get : simpl never.

Lemma pretty_N_go_not_l x : ∀ s s', s ≠ "l" +:+ s' → pretty_N_go x s ≠ "l" +:+ s'.
Proof.
  induction (N.lt_wf_0 x) as [x _ IH]. intros s s' Hs.
  destruct (decide (x = 0)%N) as [->|Hx]; [by rewrite pretty_N_go_0|].
  rewrite pretty_N_go_step by lia. apply IH; [apply N.div_lt; lia|].
  unfold pretty_N_char. by repeat case_match.
Qed.

Lemma pretty_not_length (i : N) : pretty i ≠ "length".
Proof.
  unfold pretty, pretty_N. case_decide; [done|].
  by apply (pretty_N_go_not_l i "" "ength").
Qed.

Lemma indexed_lookup (l : list value) : ∀ (i : N) (j : nat),
  (list_to_map (indexed i l) : gmap string value)
    !! pretty (i + N.of_nat j)%N = l !! j.
Proof.
  induction l as [|x l IH]; intros i j; [done|].
  cbn [indexed]. rewrite list_to_map_cons. destruct j as [|j].
  - rewrite N.add_0_r. by rewrite lookup_insert_eq.
  - rewrite lookup_insert_ne by (intros ?%(inj pretty); lia).
    replace (i + N.of_nat (S j))%N with (N.succ i + N.of_nat j)%N by lia.
    apply IH.
Qed.

Lemma array_own_index l (j : nat) :
  own_properties (VArr l) !! pretty (N.of_nat j) = l !! j.
Proof.
  cbn [own_properties].
  rewrite lookup_insert_ne by (intros Heq; by apply (pretty_not_length (N.of_nat j))).
  apply (indexed_lookup l 0 j).
Qed.

Lemma toLength_array_length l :
  (Z.of_nat (length l) ≤ max_safe_integer)%Z →
  toLength (array_length l) = Z.of_nat (length l).
Proof.
  intros Hle. unfold toLength, array_length, int.
  rewrite Qfloor_Z. cbn [Qnum inject_Z].
  destruct (Z.ltb_spec (Z.of_nat (length l)) 0); lia.
Qed.

(** An object that holds the indexed members and the [length] of the
    array [l] passes for it. *)
Lemma array_like_arguments l protos :
  (Z.of_nat (length l) ≤ max_safe_integer)%Z →
  isArrayLike (VObj (own_properties (VArr l)) protos) = true ∧
  arguments_of (VObj (own_properties (VArr l)) protos) = l.
Proof.
  intros Hle.
  assert (get (VObj (own_properties (VArr l)) protos) "length"
          = array_length l) as Hlen.
  { rewrite get_VObj. cbn [own_properties]. by rewrite lookup_insert_eq. }
  split; [unfold isArrayLike; by rewrite Hlen|].
  unfold arguments_of. rewrite Hlen, toLength_array_length, Nat2Z.id by done.
  apply list_eq. intros j. rewrite list_lookup_fmap.
  destruct (decide (j < length l)) as [Hj|Hj].
  - rewrite lookup_seq_lt by done. cbn [fmap option_fmap option_map].
    rewrite Nat.add_0_l, get_VObj, array_own_index.
    destruct (lookup_lt_is_Some_2 l j Hj) as [x Hx]. by rewrite Hx.
  - rewrite lookup_seq_ge, lookup_ge_None_2 by lia. done.
Qed.

End ArgumentFacts.

(** ** Further facts about the main-thread side *)

Module ProxyMoreFacts.
Import Js Proxy ProxySpec ProxyMore JsFacts ProxyFacts.

#[local] Arguments get : simpl never.

(** *** The stand-in *)

Lemma proxy_fold (methods : list string) :
  ∀ (init : gmap string (list value → value)) m,
    foldl (λ service method, <[method := forward method]> service)
      init methods !! m
    = if decide (m ∈ methods) then Some (forward m) else init !! m.
Proof.
  induction methods as [|k l IH]; intros init m; simpl.
  - destruct (decide (m ∈ [])) as [Hin|_]; [by apply elem_of_nil in Hin|done].
  - rewrite IH.
    destruct (decide (m ∈ l)) as [Hl|Hl];
      destruct (decide (m ∈ k :: l)) as [Hkl|Hkl]; try done.
    + exfalso. apply Hkl. by right.
    + apply elem_of_cons in Hkl as [->|?]; [by rewrite lookup_insert_eq|done].
    + rewrite lookup_insert_ne; [done|]. intros ->. apply Hkl. by left.
Qed.

Lemma proxy_lookup methods m :
  proxy methods !! m = if decide (m ∈ methods) then Some (forward m) else None.
Proof. unfold proxy. rewrite proxy_fold. by rewrite lookup_empty. Qed.


(** *** Settled promises *)

Lemma settle_keeps_settled q s sp p c :
  promises sp !! p = Some c → settled c = true →
  promises (settle q s sp) !! p = Some c.
Proof.
  intros Hc Hs. destruct (decide (q = p)) as [->|Hne].
  - unfold settle. rewrite Hc. unfold settled in Hs.
    by destruct (state c).
  - by rewrite settle_lookup_ne.
Qed.

Section Messages.
Context `{Allocator}.

Lemma onmessage_keeps_settled d sp p c :
  promises sp !! p = Some c → settled c = true →
  promises (onmessage d sp) !! p = Some c.
Proof.
  intros Hc Hs. unfold onmessage.
  destruct (has _ _); [|done]. simpl.
  destruct (pop _ _) as [[r calls']|]; [|done].
  destruct (call_member _) as [[| |]|]; try done;
    by apply settle_keeps_settled.
Qed.

Lemma ontimeout_keeps_settled q sp sp' p c :
  promises sp !! p = Some c → settled c = true →
  ontimeout q sp = Some sp' →
  promises sp' !! p = Some c.
Proof.
  intros Hc Hs. unfold ontimeout.
  destruct (promises sp !! q) as [cq|]; [|by intros [= <-]].
  destruct (state cq); try (by intros [= <-]).
  destruct (pop _ _) as [[r calls']|]; [|done]. simpl.
  intros [= <-]. by apply settle_keeps_settled.
Qed.

Lemma ontimeout_settled p sp c :
  promises sp !! p = Some c → settled c = true → ontimeout p sp = Some sp.
Proof.
  intros Hc Hs. unfold ontimeout. rewrite Hc.
  unfold settled in Hs. by destruct (state c).
Qed.

(** After a message is processed no record is left under its key. *)
Lemma onmessage_has d sp :
  has (data_uuid d) (calls (onmessage d sp)) = false.
Proof.
  unfold onmessage. destruct (has _ (calls sp)) eqn:Hhas; [|done]. simpl.
  pose proof Hhas as (u & r & Hn & Hu)%has_true.
  rewrite (pop_key _ _ _ _ Hn Hu).
  assert (∀ sp', calls sp' = delete u (calls sp) →
                 has (data_uuid d) (calls sp') = false) as Hgo.
  { intros sp' ->.
    by rewrite (has_key _ _ _ Hn), lookup_delete_eq, bool_decide_eq_false_2
      by (by intros [? ?]). }
  destruct (call_member _) as [[| |]|]; apply Hgo;
    by rewrite ?settle_calls.
Qed.

(** A response with another method than [resolve] and [reject] only
    removes the record. *)
Lemma onmessage_other d u r sp :
  key_of (data_uuid d) = Some u →
  calls sp !! u = Some r →
  data_method d ≠ "resolve" → data_method d ≠ "reject" →
  onmessage d sp = without_record u sp.
Proof.
  intros Hn Hu Hres Hrej. unfold onmessage.
  rewrite (has_key _ _ _ Hn), Hu, bool_decide_eq_true_2 by eauto. simpl.
  rewrite (pop_key _ _ _ _ Hn Hu).
  destruct (call_member _) as [[| |]|] eqn:Hm; try done.
  - by apply call_member_resolve in Hm.
  - by apply call_member_reject in Hm.
Qed.

(** A response for an outstanding call settles its promise. *)
Lemma settled_by_response d u s sp p :
  carries d u s → outstanding sp u p →
  promise_state (onmessage d sp) p = Some s.
Proof.
  intros Hd [Hu (c & Hc & Hk & Hs)].
  rewrite (onmessage_carries d u s sp p Hd Hu).
  unfold promise_state. by rewrite (settle_lookup_eq p s _ c).
Qed.

Lemma chained_after_response d u s sp p c :
  carries d u s →
  calls sp !! u = Some {| promise := p |} →
  promises sp !! p = Some c → state c = Pending →
  chained_state (onmessage d sp) p = chained (set_state s c).
Proof.
  intros Hd Hu Hc Hs. rewrite (onmessage_carries d u s sp p Hd Hu).
  unfold chained_state. by rewrite (settle_lookup_eq p s _ c).
Qed.

(** The call [terminate ()] placed: how a response ends it. *)
Lemma terminating_outstanding sp u p :
  terminating sp u p → outstanding sp u p.
Proof. intros [Hu (c & Hc & Hk & Hs & _)]. split; eauto. Qed.

Lemma terminating_fulfilled d u v sp p :
  carries d u (Fulfilled v) → terminating sp u p →
  worker_alive (onmessage d sp) = false ∧
  chained_state (onmessage d sp) p = Some (Done VUndef).
Proof.
  intros Hd [Hu (c & Hc & Hk & Hs & Hn)].
  rewrite (onmessage_carries d u _ sp p Hd Hu).
  rewrite (settle_alive _ _ _ c), Hn by done. split; [done|].
  unfold chained_state. rewrite (settle_lookup_eq _ _ _ c) by done.
  cbn [mbind option_bind]. unfold chained. cbn [state next set_state].
  by rewrite Hn.
Qed.

Lemma terminating_rejected d u r sp p :
  carries d u (Rejected r) → terminating sp u p →
  worker_alive (onmessage d sp) = worker_alive sp ∧
  chained_state (onmessage d sp) p = Some (Failed r).
Proof.
  intros Hd [Hu (c & Hc & Hk & Hs & Hn)].
  rewrite (onmessage_carries d u _ sp p Hd Hu).
  rewrite (settle_alive _ _ _ c), Hn by done. split; [done|].
  unfold chained_state. by rewrite (settle_lookup_eq _ _ _ c).
Qed.

(** *** Requests *)

Lemma call_outbox static spec sp :
  outbox (call static spec sp).1
  = outbox sp ++ [set spec "uuid" (VNum (int (fresh (dom (calls sp)))))].
Proof. by rewrite call_spec. Qed.

Lemma constructor_spec static path :
  constructor static path
  = ({| worker_alive := true;
        outbox := [set (obj [("method", VStr "getServiceMethods")]) "uuid"
                     (VNum (int (fresh ∅)))];
        calls := {[ fresh ∅ := {| promise := 0 |} ]};
        promises := [{| uuid := fresh ∅; delay := static;
                        state := Pending; next := ThenProxy |}] |}, 0).
Proof.
  unfold constructor, and_then. rewrite call_spec.
  unfold newIndexedQueue. cbn [fst snd calls promises outbox worker_alive].
  rewrite dom_empty_L. reflexivity.
Qed.

Lemma terminate_outbox static sp :
  outbox (terminate static sp).1
  = outbox sp ++ [set (obj [("method", VStr "onterminate")]) "uuid"
                    (VNum (int (fresh (dom (calls sp)))))].
Proof. unfold terminate, and_then. by rewrite call_spec. Qed.

End Messages.

(** The responses of the worker, as the main thread reads them. *)
Lemma decode_resolve u v :
  decode (Worker.resolve_message (VNum (int u)) v)
  = Some {| data_uuid := int u; data_method := "resolve";
            data_args := VArr [v] |}.
Proof. reflexivity. Qed.

Lemma decode_reject u e :
  decode (Worker.reject_message (VNum (int u)) e)
  = Some {| data_uuid := int u; data_method := "reject";
            data_args :=
              VArr [obj [("name", get e "name");
                         ("message", get e "message");
                         ("stack", get e "stack")]] |}.
Proof. reflexivity. Qed.

End ProxyMoreFacts.

Module WorkerMoreTheorems.
Import Js Worker WorkerSpec WorkerMore Sample MoreSamples.
Import JsFacts WorkerFacts WorkerMoreFacts ArgumentFacts.



(** X2: the arguments a request passes.  Falsy [args] pass no argument; an
    array passes its elements; an object that holds the indexed members and
    the [length] of an array is accepted as array-like and passes the same
    arguments as that array. *)
Theorem arguments_passed data l protos :
  (truthy (get data "args") = false → passed data = []) ∧
  (get data "args" = VArr l → passed data = l) ∧
  ((Z.of_nat (length l) ≤ max_safe_integer)%Z →
   get data "args" = VObj (own_properties (VArr l)) protos →
   isArrayLike (get data "args") = true ∧ passed data = l).
Proof.
  unfold passed, js_or. split; [by intros ->|]. split; [by intros ->|].
  intros Hle ->. cbn [truthy]. by apply array_like_arguments.
Qed.

Lemma arguments_passed_witness :
  passed (request VUndef (VStr "m") (VNum (int 0))) = [] ∧
  passed (request VUndef (VStr "m") (VArr [VStr "a"; VStr "b"]))
  = [VStr "a"; VStr "b"] ∧
  passed (request VUndef (VStr "m")
            (obj [("0", VStr "a"); ("1", VStr "b");
                  ("length", VNum (int 2))]))
  = [VStr "a"; VStr "b"].
Proof.
  split; [|split].
  - destruct (arguments_passed
                (request VUndef (VStr "m") (VNum (int 0))) [] [])
      as (Hnone & _). apply Hnone. reflexivity.
  - destruct (arguments_passed
                (request VUndef (VStr "m") (VArr [VStr "a"; VStr "b"]))
                [VStr "a"; VStr "b"] [])
      as (_ & Harr & _). apply Harr. reflexivity.
  - destruct (arguments_passed
                (request VUndef (VStr "m")
                   (obj [("0", VStr "a"); ("1", VStr "b");
                         ("length", VNum (int 2))]))
                [VStr "a"; VStr "b"] [object_prototype])
      as (_ & _ & Hlike).
    apply Hlike; [vm_compute; discriminate|vm_compute; reflexivity].
Defined.

(** X3: the method [resolve] of the endpoint can be called by name.  A
    well-formed request that is dispatched to the endpoint and names
    [resolve] makes the worker post a [resolve] message under the uuid and
    with the value given as its first two arguments, and then the response
    to the request itself, which resolves to [undefined]. *)
Theorem resolve_called_by_name {Σ : Type}
    (run : string → list value → Σ → behaviour * Σ)
    same spec slot ws data σ args :
  hookService same spec slot = (Ok tt, Some ws) →
  well_formed data = true →
  internal ws (get data "target") = true →
  get data "method" = VStr "resolve" →
  get data "args" = VArr args →
  onmessage run ws data σ
  = Some (σ, {| posted := [resolve_message (get (VArr args) "0")
                             (get (VArr args) "1");
                           resolve_message (get data "uuid") VUndef];
                uncaught := None |}).
Proof.
  intros Hw%hooked_worker. by apply resolve_request_reaction.
Qed.

Lemma resolve_called_by_name_witness :
  onmessage sample_run sample_ws
    (request VUndef (VStr "resolve") (VArr [VNum (int 7); VStr "x"])) 0
  = Some (0, {| posted := [resolve_message (VNum (int 7)) (VStr "x");
                           resolve_message (VNum (int 42)) VUndef];
                uncaught := None |}).
Proof.
  apply (resolve_called_by_name sample_run false sample_spec None sample_ws
           (request VUndef (VStr "resolve") (VArr [VNum (int 7); VStr "x"]))
           0 [VNum (int 7); VStr "x"]);
    [vm_compute; reflexivity|reflexivity..].
Defined.

(** X4: a spec that passes validation but whose service has no prototype
    makes [hookService] throw the host's [TypeError], not the
    [invalid argument] one, and leaves the [onmessage] slot as it was. *)
Theorem service_without_prototype same spec slot :
  isValidServiceBinderSpec spec = true →
  prototype_chain (get spec "service") = [] →
  hookService same spec slot = (Throw host_type_error, slot) ∧
  get host_type_error "message" ≠ VStr "invalid argument".
Proof.
  intros Hv Hc. split; [by apply hookService_bare|].
  unfold host_type_error. rewrite new_error_message. discriminate.
Qed.

Lemma service_without_prototype_witness :
  hookService false spec_bare_service (Some sample_ws)
  = (Throw host_type_error, Some sample_ws) ∧
  get host_type_error "message" ≠ VStr "invalid argument".
Proof.
  apply (service_without_prototype false spec_bare_service (Some sample_ws));
    reflexivity.
Defined.

(** X5: a name under which the service itself holds something that is not
    a function is not exposed, whatever the prototypes of the service hold
    under that name. *)
Theorem shadowed_method_hidden same spec slot ws m x :
  hookService same spec slot = (Ok tt, Some ws) →
  own_properties (get spec "service") !! m = Some x →
  isFunction x = false →
  m ∉ methods ws.
Proof.
  intros [_ Hexp]%hooked_methods Hx Hf (_ & _ & _ & Hfun & _)%Hexp.
  rewrite (own_member_first _ _ _ Hx) in Hfun. congruence.
Qed.

Lemma shadowed_method_hidden_witness :
  "syncwork" ∉ ["asyncwork"].
Proof.
  apply (shadowed_method_hidden false shadowing_spec None
           {| worker := write sample_worker "onmessage" handler;
              service := shadowing_service;
              onterminate := VUndef; methods := ["asyncwork"];
              shared := false |}
           "syncwork" (VNum (int 1)));
    [vm_compute; reflexivity|reflexivity..].
Defined.

End WorkerMoreTheorems.

Module ProxyTheorems.
Import Js Proxy ProxySpec ProxyMore MoreSamples.
Import JsFacts ProxyFacts ProxyMoreFacts.

#[local] Arguments get : simpl never.

Section Claims.
Context `{Allocator}.

(** C2: when two calls with distinct keys [u1] and [u2] are outstanding and
    the response carrying [u2] is processed before the response carrying
    [u1], each promise is settled with the value or error of the response
    that carries its own key; processing them in the other order gives
    the same two settlements. *)
Theorem responses_matched_by_key sp u1 p1 u2 p2 d1 s1 d2 s2 :
  outstanding sp u1 p1 →
  outstanding sp u2 p2 →
  u1 ≠ u2 →
  carries d1 u1 s1 →
  carries d2 u2 s2 →
  promise_state (onmessage d1 (onmessage d2 sp)) p1 = Some s1 ∧
  promise_state (onmessage d1 (onmessage d2 sp)) p2 = Some s2 ∧
  promise_state (onmessage d2 (onmessage d1 sp)) p1 = Some s1 ∧
  promise_state (onmessage d2 (onmessage d1 sp)) p2 = Some s2.
Proof.
  intros [Hu1 (c1 & Hc1 & Hk1 & Hs1)] [Hu2 (c2 & Hc2 & Hk2 & Hs2)] Hne Hd1 Hd2.
  assert (p1 ≠ p2) as Hp by (intros ->; congruence).
  assert (calls (settle p2 s2 (without_record u2 sp)) !! u1
          = Some {| promise := p1 |}) as Hu1'.
  { rewrite settle_calls. simpl. by rewrite lookup_delete_ne. }
  assert (calls (settle p1 s1 (without_record u1 sp)) !! u2
          = Some {| promise := p2 |}) as Hu2'.
  { rewrite settle_calls. simpl. by rewrite lookup_delete_ne. }
  rewrite (onmessage_carries d2 u2 s2 sp p2 Hd2 Hu2).
  rewrite (onmessage_carries d1 u1 s1 sp p1 Hd1 Hu1).
  rewrite (onmessage_carries d1 u1 s1 _ p1 Hd1 Hu1').
  rewrite (onmessage_carries d2 u2 s2 _ p2 Hd2 Hu2').
  assert (∀ u p s c (sp' : ServiceProxyClass),
            promises sp' !! p = Some c → state c = Pending →
            promise_state (settle p s (without_record u sp')) p = Some s)
    as Hown.
  { intros u p s c sp' Hc Hs. unfold promise_state.
    by rewrite (settle_lookup_eq p s _ c). }
  assert (∀ u p q s (sp' : ServiceProxyClass),
            p ≠ q →
            promise_state (settle p s (without_record u sp')) q
            = promise_state sp' q) as Hother.
  { intros u p q s sp' Hpq. unfold promise_state.
    by rewrite settle_lookup_ne. }
  repeat split.
  - apply (Hown _ _ _ c1); [|done]. by rewrite settle_lookup_ne.
  - rewrite Hother by done. by apply (Hown _ _ _ c2).
  - rewrite Hother by done. by apply (Hown _ _ _ c1).
  - apply (Hown _ _ _ c2); [|done]. by rewrite settle_lookup_ne.
Qed.

(** C3: a response whose [uuid] holds no record leaves the instance as it
    is; otherwise the record under that [uuid] is removed and no other
    record is touched, and when the [method] is neither ["resolve"] nor
    ["reject"] no promise is settled and nothing else changes. *)
Theorem unmatched_response_ignored d sp :
  (has (data_uuid d) (calls sp) = false → onmessage d sp = sp) ∧
  (has (data_uuid d) (calls sp) = true →
   has (data_uuid d) (calls (onmessage d sp)) = false ∧
   (∀ k, key_of (data_uuid d) ≠ Some k →
         calls (onmessage d sp) !! k = calls sp !! k) ∧
   (data_method d ≠ "resolve" → data_method d ≠ "reject" →
    promises (onmessage d sp) = promises sp ∧
    worker_alive (onmessage d sp) = worker_alive sp ∧
    outbox (onmessage d sp) = outbox sp)).
Proof.
  split; [by unfold onmessage; intros ->|].
  intros Hhas. pose proof Hhas as (u & r & Hn & Hu)%has_true.
  unfold onmessage. rewrite Hhas, (pop_key _ _ _ _ Hn Hu). simpl.
  set (sp' := Build_ServiceProxyClass _ _ _ _).
  assert (∀ sp'', calls sp'' = calls sp' →
            has (data_uuid d) (calls sp'') = false ∧
            ∀ k, key_of (data_uuid d) ≠ Some k →
                 calls sp'' !! k = calls sp !! k) as Hcalls.
  { intros sp'' ->. simpl. split.
    - by rewrite (has_key _ _ _ Hn), lookup_delete_eq, bool_decide_eq_false_2
        by (by intros [? ?]).
    - intros k Hk. apply lookup_delete_ne. congruence. }
  destruct (call_member (data_method d)) as [[| |]|] eqn:Hm.
  - apply call_member_resolve in Hm.
    destruct (Hcalls (settle (promise r)
                (Fulfilled (default VUndef (head (arguments_of
                   (if isArrayLike (data_args d) then data_args d
                    else VArr []))))) sp')) as [? ?];
      [apply settle_calls|]. done.
  - apply call_member_reject in Hm.
    destruct (Hcalls (settle (promise r)
                (Rejected (Reason (default VUndef (head (arguments_of
                   (if isArrayLike (data_args d) then data_args d
                    else VArr [])))))) sp')) as [? ?];
      [apply settle_calls|]. done.
  - by destruct (Hcalls sp').
  - by destruct (Hcalls sp').
Qed.

(** C4: the timer of a call is armed with [data.timeout] or else the
    static timeout, 180 000 ms when neither was overridden.  When it fires
    while the call is outstanding, the promise is rejected with a
    [TimeoutError] and the record of the call is removed, so that a
    response that carries the key of the call afterwards changes
    nothing. *)
Theorem timeout_abandons_call static spec sp :
  promise_delay (call static spec sp).1 (call static spec sp).2
    = Some (js_or (get spec "timeout") static) ∧
  (truthy (get spec "timeout") = false →
   promise_delay (call timeout spec sp).1 (call timeout spec sp).2
   = Some (VNum (int 180000))) ∧
  outstanding (call static spec sp).1 (fresh (dom (calls sp)))
    (call static spec sp).2 ∧
  ∀ sp', outstanding sp' (fresh (dom (calls sp))) (call static spec sp).2 →
    ∃ sp'', ontimeout (call static spec sp).2 sp' = Some sp'' ∧
      promise_state sp'' (call static spec sp).2
      = Some (Rejected TimeoutError) ∧
      calls sp'' !! fresh (dom (calls sp)) = None ∧
      ∀ d, key_of (data_uuid d) = Some (fresh (dom (calls sp))) →
           onmessage d sp'' = sp''.
Proof.
  split; [apply call_delay|]. split.
  { intros Hf. rewrite call_delay. unfold js_or. by rewrite Hf. }
  split; [apply call_outstanding|].
  set (u := fresh (dom (calls sp))). set (p := (call static spec sp).2).
  intros sp' Hout. eexists. split; [by apply ontimeout_outstanding|].
  destruct Hout as [Hu (c & Hc & Hk & Hs)].
  assert (calls (settle p (Rejected TimeoutError) (without_record u sp')) !! u
          = None) as Hgone.
  { rewrite settle_calls. apply lookup_delete_eq. }
  split; [|split; [done|]].
  - unfold promise_state. by rewrite (settle_lookup_eq _ _ _ c).
  - intros d Hd. by apply onmessage_absent with u.
Qed.



(** X11: a message is processed at most once: handling the same message
    a second time changes nothing. *)
Theorem duplicate_response_ignored d sp :
  onmessage d (onmessage d sp) = onmessage d sp.
Proof.
  unfold onmessage at 1. by rewrite onmessage_has.
Qed.

(** X12: a promise that is fulfilled or rejected keeps its state: no
    message and no timer changes it, and its own timer does nothing at
    all. *)
Theorem settled_promise_final sp p c :
  promises sp !! p = Some c →
  settled c = true →
  (∀ d, promises (onmessage d sp) !! p = Some c) ∧
  (∀ q sp', ontimeout q sp = Some sp' → promises sp' !! p = Some c) ∧
  ontimeout p sp = Some sp.
Proof.
  intros Hc Hs. split; [|split].
  - intros d. by apply onmessage_keeps_settled.
  - intros q sp'. by apply ontimeout_keeps_settled.
  - by apply ontimeout_settled with c.
Qed.

(** X13: [call] stores the record of the new call under a key that was not
    in use, keeps every other record and every earlier promise, leaves the
    worker as it is and posts exactly one message: the spec it was given,
    field for field, with the key as its [uuid]. *)
Theorem call_frame static own protos sp :
  calls sp !! fresh (dom (calls sp)) = None ∧
  calls (call static (VObj own protos) sp).1
  = <[fresh (dom (calls sp))
      := {| promise := (call static (VObj own protos) sp).2 |}]> (calls sp) ∧
  (∀ q c, promises sp !! q = Some c →
          promises (call static (VObj own protos) sp).1 !! q = Some c) ∧
  worker_alive (call static (VObj own protos) sp).1 = worker_alive sp ∧
  ∃ req,
    outbox (call static (VObj own protos) sp).1 = outbox sp ++ [req] ∧
    get req "uuid" = VNum (int (fresh (dom (calls sp)))) ∧
    ∀ k, k ≠ "uuid" → get req k = get (VObj own protos) k.
Proof.
  rewrite call_spec. cbn [fst snd calls promises worker_alive outbox].
  split; [apply not_elem_of_dom, fresh_unused|]. split; [done|].
  split; [intros q c Hq; by apply lookup_app_l_Some|]. split; [done|].
  eexists. split; [done|]. split.
  - cbn [set]. rewrite get_VObj. by rewrite lookup_insert_eq.
  - intros k Hk. by apply get_set_other.
Qed.

(** X14: a response for an outstanding call whose method is neither
    ["resolve"] nor ["reject"] leaves the promise of the call pending with
    no record: every later response for the call is ignored, and when the
    timer of the call fires, its handler calls [pop] with a key that holds
    no record. *)
Theorem unknown_method_strands_call sp u p d :
  outstanding sp u p →
  key_of (data_uuid d) = Some u →
  data_method d ≠ "resolve" →
  data_method d ≠ "reject" →
  promise_state (onmessage d sp) p = Some Pending ∧
  (∀ d', key_of (data_uuid d') = Some u →
         onmessage d' (onmessage d sp) = onmessage d sp) ∧
  ontimeout p (onmessage d sp) = None.
Proof.
  intros [Hu (c & Hc & Hk & Hs)] Hn Hres Hrej.
  rewrite (onmessage_other d u _ sp Hn Hu Hres Hrej).
  split; [|split].
  - unfold promise_state. simpl. by rewrite Hc, <-Hs.
  - intros d' Hd'. apply onmessage_absent with u; [done|].
    apply lookup_delete_eq.
  - unfold ontimeout. simpl. rewrite Hc, Hs, Hk.
    unfold pop. rewrite key_of_int. simpl. by rewrite lookup_delete_eq.
Qed.

(** X15: the stand-in [proxy] builds has one member for each name of the
    list and no other, and the member [m] places the call
    [{ target: 'service', method: m, args }]. *)
Theorem stand_in_members (methods : list string) m args :
  (m ∈ methods → proxy methods !! m = Some (forward m)) ∧
  (m ∉ methods → proxy methods !! m = None) ∧
  get (forward m args) "target" = VStr "service" ∧
  get (forward m args) "method" = VStr m ∧
  get (forward m args) "args" = VArr args.
Proof.
  rewrite proxy_lookup. split; [|split].
  - intros Hin. by rewrite decide_True.
  - intros Hin. by rewrite decide_False.
  - repeat split; reflexivity.
Qed.

End Claims.

(** *** Witnesses, with the allocator [next_key] *)


Lemma responses_matched_by_key_witness :
  promise_state
    (onmessage (response 2 "resolve" (VStr "first"))
       (onmessage (response 3 "reject" (VStr "second")) two_calls)) 1
  = Some (Fulfilled (VStr "first")) ∧
  promise_state
    (onmessage (response 2 "resolve" (VStr "first"))
       (onmessage (response 3 "reject" (VStr "second")) two_calls)) 2
  = Some (Rejected (Reason (VStr "second"))).
Proof.
  destruct (responses_matched_by_key two_calls 2 1 3 2
              (response 2 "resolve" (VStr "first")) (Fulfilled (VStr "first"))
              (response 3 "reject" (VStr "second"))
              (Rejected (Reason (VStr "second"))))
    as (H1 & H2 & _).
  - split; [vm_compute; reflexivity|].
    eexists; (split; [vm_compute; reflexivity|split; reflexivity]).
  - split; [vm_compute; reflexivity|].
    eexists; (split; [vm_compute; reflexivity|split; reflexivity]).
  - discriminate.
  - apply carries_resolve. vm_compute. reflexivity.
  - apply carries_reject. vm_compute. reflexivity.
  - split; [exact H1|exact H2].
Defined.

Lemma unmatched_response_ignored_witness :
  onmessage (response 9 "resolve" (VStr "late")) two_calls = two_calls ∧
  promises (onmessage (response 2 "toString" VUndef) two_calls)
  = promises two_calls.
Proof.
  split.
  - destruct (unmatched_response_ignored
                (response 9 "resolve" (VStr "late")) two_calls) as [Habs _].
    apply Habs. vm_compute. reflexivity.
  - destruct (unmatched_response_ignored
                (response 2 "toString" VUndef) two_calls) as [_ Hpres].
    destruct Hpres as (_ & _ & Hkeep); [vm_compute; reflexivity|].
    destruct Hkeep as (Hp & _); [discriminate..|]. exact Hp.
Defined.

Lemma timeout_abandons_call_witness :
  promise_delay sample_call.1 sample_call.2 = Some (VNum (int 180000)) ∧
  ∃ sp'', ontimeout sample_call.2 sample_call.1 = Some sp'' ∧
    promise_state sp'' sample_call.2 = Some (Rejected TimeoutError) ∧
    onmessage (response 2 "resolve" (VStr "late")) sp'' = sp''.
Proof.
  destruct (timeout_abandons_call timeout
              (forward "syncwork" [VStr "foo"; VStr "bar"]) sample_proxy)
    as (_ & Hdelay & Hout & Hfire).
  split; [apply Hdelay; reflexivity|].
  destruct (Hfire sample_call.1 Hout) as (sp'' & Ht & Hs & _ & Hlate).
  exists sp''. split; [exact Ht|]. split; [exact Hs|].
  apply Hlate. vm_compute. reflexivity.
Defined.



Lemma settled_promise_final_witness :
  ontimeout 0 (onmessage (response 1 "resolve" (VArr [])) sample_proxy)
  = Some (onmessage (response 1 "resolve" (VArr [])) sample_proxy).
Proof.
  apply (settled_promise_final
           (onmessage (response 1 "resolve" (VArr [])) sample_proxy) 0
           {| uuid := 1; delay := timeout; state := Fulfilled (VArr []);
              next := ThenProxy |});
    [vm_compute; reflexivity|reflexivity].
Defined.

Lemma call_frame_witness :
  calls sample_call.1 !! 2%Z = Some {| promise := 1 |} ∧
  promises sample_call.1 !! 0 = promises sample_proxy !! 0.
Proof.
  destruct (call_frame timeout
              (list_to_map [("target", VStr "service");
                            ("method", VStr "syncwork");
                            ("args", VArr [VStr "foo"; VStr "bar"])])
              [object_prototype] sample_proxy)
    as (_ & Hcalls & Hkeep & _).
  split.
  - unfold sample_call, forward, obj. rewrite Hcalls. vm_compute. reflexivity.
  - symmetry. unfold sample_call, forward, obj.
    apply (Hkeep 0 {| uuid := 1; delay := timeout; state := Pending;
                      next := ThenProxy |}).
    vm_compute. reflexivity.
Defined.

Lemma unknown_method_strands_call_witness :
  promise_state (onmessage (response 2 "toString" VUndef) two_calls) 1
  = Some Pending ∧
  ontimeout 1 (onmessage (response 2 "toString" VUndef) two_calls) = None.
Proof.
  destruct (unknown_method_strands_call two_calls 2 1
              (response 2 "toString" VUndef)) as (Hp & _ & Ht).
  - split; [vm_compute; reflexivity|].
    eexists; (split; [vm_compute; reflexivity|split; reflexivity]).
  - vm_compute. reflexivity.
  - discriminate.
  - discriminate.
  - split; [exact Hp|exact Ht].
Defined.

Lemma stand_in_members_witness :
  proxy ["syncwork"; "stop"] !! "stop" = Some (forward "stop") ∧
  proxy ["syncwork"; "stop"] !! "kill" = None.
Proof.
  destruct (stand_in_members ["syncwork"; "stop"] "stop" [])
    as (Hin & _).
  destruct (stand_in_members ["syncwork"; "stop"] "kill" [])
    as (_ & Hout & _).
  split.
  - apply Hin. apply (bool_decide_eq_true_1 _). reflexivity.
  - apply Hout. apply (bool_decide_eq_false_1 _). reflexivity.
Defined.

End ProxyTheorems.

(** ** Both sides together *)

Module RoundTripFacts.
Import Js ProxySpec ProxyMore BothSides.
Import JsFacts WorkerFacts WorkerMoreFacts ProxyFacts ProxyMoreFacts.

#[local] Arguments get : simpl never.

Lemma forwarded_well_formed m args u :
  WorkerSpec.well_formed (forwarded m args u)
  = bool_decide (Z.abs u ≤ max_safe_integer)%Z.
Proof.
  unfold WorkerSpec.well_formed, Worker.isValidWorkerServiceMethodCall.
  change (get (forwarded m args u) "uuid") with (VNum (int u)).
  change (get (forwarded m args u) "target") with (VStr "service").
  change (get (forwarded m args u) "method") with (VStr m).
  change (get (forwarded m args u) "args") with (VArr args).
  rewrite isSafeInteger_int, isArrayLike_array. cbn. by rewrite andb_true_r.
Qed.

Lemma reserved_well_formed name u :
  WorkerSpec.well_formed (reserved name u)
  = bool_decide (Z.abs u ≤ max_safe_integer)%Z.
Proof.
  unfold WorkerSpec.well_formed, Worker.isValidWorkerServiceMethodCall.
  change (get (reserved name u) "uuid") with (VNum (int u)).
  change (get (reserved name u) "target") with VUndef.
  change (get (reserved name u) "method") with (VStr name).
  change (get (reserved name u) "args") with VUndef.
  rewrite isSafeInteger_int. cbn. by rewrite andb_true_r.
Qed.

Lemma forwarded_fields m args u :
  get (forwarded m args u) "uuid" = VNum (int u) ∧
  get (forwarded m args u) "target" = VStr "service" ∧
  WorkerMore.passed (forwarded m args u) = args ∧
  Worker.string_of (get (forwarded m args u) "method") = m.
Proof. repeat split; reflexivity. Qed.

Lemma reserved_fields name u :
  get (reserved name u) "uuid" = VNum (int u) ∧
  get (reserved name u) "target" = VUndef ∧
  WorkerMore.passed (reserved name u) = [] ∧
  get (reserved name u) "method" = VStr name.
Proof. repeat split; reflexivity. Qed.

Lemma same_error_descriptor e :
  same_error (obj [("name", get e "name"); ("message", get e "message");
                   ("stack", get e "stack")]) e.
Proof. split; reflexivity. Qed.

Section Both.
Context `{IndexedQueue.Allocator} {Σ : Type}
        (run : string → list value → Σ → behaviour * Σ).

(** What the main thread makes of the reaction of the worker to a
    request: a response that carries the key of the call and agrees with
    the behaviour of the function called. *)
Lemma response_carried u b :
  answered b = true →
  ∃ resp d s,
    WorkerMore.response_to (VNum (int u)) b
      = {| Worker.posted := [resp]; Worker.uncaught := None |} ∧
    Proxy.decode resp = Some d ∧ carries d u s ∧ agrees b s.
Proof.
  intros Hb. unfold WorkerMore.response_to.
  destruct b as [v|e|v|e|]; try done; simpl in *.
  - eexists _, _, (Proxy.Fulfilled v). split; [done|].
    split; [apply decode_resolve|].
    split; [apply carries_resolve, key_of_int|done].
  - apply negb_true_iff in Hb. rewrite Hb.
    eexists _, _, _. split; [done|]. split; [apply decode_reject|].
    split; [apply carries_reject, key_of_int|].
    eexists. split; [done|apply same_error_descriptor].
  - eexists _, _, (Proxy.Fulfilled v). split; [done|].
    split; [apply decode_resolve|].
    split; [apply carries_resolve, key_of_int|done].
  - apply negb_true_iff in Hb. rewrite Hb.
    eexists _, _, _. split; [done|]. split; [apply decode_reject|].
    split; [apply carries_reject, key_of_int|].
    eexists. split; [done|apply same_error_descriptor].
Qed.

End Both.

End RoundTripFacts.

Module RoundTrip.
Import Js IndexedQueue ProxySpec ProxyMore BothSides Sample MoreSamples.
Import JsFacts WorkerFacts WorkerMoreFacts ProxyFacts ProxyMoreFacts.
Import RoundTripFacts.

#[local] Arguments get : simpl never.

Section Both.
Context `{Allocator} {Σ : Type}
        (run : string → list value → Σ → behaviour * Σ).

(** X16: every request the main thread posts, the call a member of the
    stand-in places as well as a call of a reserved method, passes the two
    assertions of [callTargetMethod] exactly when its key is a safe
    integer. *)
Theorem posted_requests_well_formed m args name u :
  WorkerSpec.well_formed (forwarded m args u)
  = bool_decide (Z.abs u ≤ max_safe_integer)%Z ∧
  WorkerSpec.well_formed (reserved name u)
  = bool_decide (Z.abs u ≤ max_safe_integer)%Z.
Proof. split; [apply forwarded_well_formed|apply reserved_well_formed]. Qed.

(** X17: the round trip of a call.  For a method [m] of the exposed set
    that the service holds as a function, the stand-in has the member [m];
    calling it posts a request under a new key; the worker answers that
    request with one response, having called the function with the same
    arguments; and while the call is outstanding that response settles its
    promise: fulfilled with the value the function returned or resolved
    to, or rejected with a descriptor that has the name and message of the
    error it threw or rejected with.  The key has to be a safe integer and
    the error other than [null] and [undefined]. *)
Theorem round_trip same spec slot ws m id args σ static sp :
  Worker.hookService same spec slot = (Ok tt, Some ws) →
  m ∈ Worker.methods ws →
  get (Worker.service ws) m = VFun (Code id) →
  (Z.abs (fresh (dom (Proxy.calls sp))) ≤ max_safe_integer)%Z →
  answered (run id args σ).1 = true →
  Proxy.proxy (Worker.methods ws) !! m = Some (Proxy.forward m) ∧
  last (Proxy.outbox (Proxy.call static (Proxy.forward m args) sp).1)
  = Some (forwarded m args (fresh (dom (Proxy.calls sp)))) ∧
  outstanding (Proxy.call static (Proxy.forward m args) sp).1
    (fresh (dom (Proxy.calls sp)))
    (Proxy.call static (Proxy.forward m args) sp).2 ∧
  ∃ resp d,
    Worker.onmessage run ws
      (forwarded m args (fresh (dom (Proxy.calls sp)))) σ
    = Some ((run id args σ).2,
            {| Worker.posted := [resp]; Worker.uncaught := None |}) ∧
    Proxy.decode resp = Some d ∧
    ∀ sp',
      outstanding sp' (fresh (dom (Proxy.calls sp)))
        (Proxy.call static (Proxy.forward m args) sp).2 →
      ∃ s,
        promise_state (Proxy.onmessage d sp')
          (Proxy.call static (Proxy.forward m args) sp).2 = Some s ∧
        agrees (run id args σ).1 s.
Proof.
  intros Hhook Hm Hf Hu Hb.
  pose proof (hooked_worker _ _ _ _ Hhook) as Hw.
  assert (isObject (Worker.service ws) = true) as Hs.
  { apply (isFunction_get_isObject _ m). by rewrite Hf. }
  set (u := fresh (dom (Proxy.calls sp))) in *.
  split; [by rewrite proxy_lookup, decide_True|].
  split; [rewrite call_outbox, last_snoc; reflexivity|].
  split; [apply call_outstanding|].
  destruct (response_carried u (run id args σ).1 Hb)
    as (resp & d & s & Hresp & Hdec & Hcar & Hagr).
  exists resp, d. split; [|split; [done|]].
  - destruct (forwarded_fields m args u) as (Huuid & Htarget & Hargs & Hname).
    rewrite <-Hresp.
    rewrite (code_call_reaction run ws (forwarded m args u) σ
               Worker.Service id).
    + by rewrite Huuid, Hargs.
    + done.
    + by rewrite forwarded_well_formed, bool_decide_eq_true_2.
    + rewrite select_method_service; rewrite ?Hname; try done.
      by rewrite Hf.
  - intros sp' Hout. exists s. split; [|done].
    by apply settled_by_response with u.
Qed.


(** X19: [terminate ()] against a worker that was hooked without an
    [onterminate] function.  The worker answers the [onterminate] request
    with the rejection [unknown method], and while the call is outstanding
    that response fails the promise of [terminate ()] with that error and
    leaves the worker as it is: only [kill ()] ends such a worker. *)
Theorem terminate_without_handler same spec slot ws σ static sp :
  Worker.hookService same spec slot = (Ok tt, Some ws) →
  isFunction (Worker.onterminate ws) = false →
  (Z.abs (fresh (dom (Proxy.calls sp))) ≤ max_safe_integer)%Z →
  last (Proxy.outbox (Proxy.terminate static sp).1)
  = Some (reserved "onterminate" (fresh (dom (Proxy.calls sp)))) ∧
  ∃ resp d e,
    Worker.onmessage run ws
      (reserved "onterminate" (fresh (dom (Proxy.calls sp)))) σ
    = Some (σ, {| Worker.posted := [resp]; Worker.uncaught := None |}) ∧
    Proxy.decode resp = Some d ∧
    get e "name" = VStr "Error" ∧
    get e "message" = VStr "unknown method" ∧
    ∀ sp' p, terminating sp' (fresh (dom (Proxy.calls sp))) p →
      Proxy.worker_alive (Proxy.onmessage d sp') = Proxy.worker_alive sp' ∧
      chained_state (Proxy.onmessage d sp') p
      = Some (Proxy.Failed (Proxy.Reason e)).
Proof.
  intros Hhook Hf Hu.
  pose proof (hooked_worker _ _ _ _ Hhook) as Hw.
  set (u := fresh (dom (Proxy.calls sp))) in *.
  split; [rewrite terminate_outbox, last_snoc; reflexivity|].
  exists (Worker.reject_message (VNum (int u))
            (new_error "Error" "unknown method")).
  eexists.
  exists (obj [("name", get (new_error "Error" "unknown method") "name");
               ("message", get (new_error "Error" "unknown method") "message");
               ("stack", get (new_error "Error" "unknown method") "stack")]).
  split; [|split; [apply decode_reject|split; [|split]]].
  - apply (unknown_reaction run ws (reserved "onterminate" u) σ Worker.This);
      [done|by rewrite reserved_well_formed, bool_decide_eq_true_2|].
    rewrite select_method_internal by reflexivity.
    change (Worker.this_get ws
              (Worker.string_of (get (reserved "onterminate" u) "method")))
      with (Worker.onterminate ws).
    by rewrite Hf.
  - reflexivity.
  - reflexivity.
  - intros sp' p Hterm. apply terminating_rejected with u; [|done].
    apply carries_reject, key_of_int.
Qed.

(** X20: [terminate ()] against a worker hooked with an [onterminate]
    function.  The worker calls that function without arguments and
    answers; while the call is outstanding the response destroys the
    worker and fulfils the promise of [terminate ()] when the function
    returned or resolved, and otherwise leaves the worker as it is and
    rejects the promise with the name and message of the error. *)
Theorem terminate_with_handler same spec slot ws id σ sp :
  Worker.hookService same spec slot = (Ok tt, Some ws) →
  Worker.onterminate ws = VFun (Code id) →
  (Z.abs (fresh (dom (Proxy.calls sp))) ≤ max_safe_integer)%Z →
  answered (run id [] σ).1 = true →
  ∃ resp d,
    Worker.onmessage run ws
      (reserved "onterminate" (fresh (dom (Proxy.calls sp)))) σ
    = Some ((run id [] σ).2,
            {| Worker.posted := [resp]; Worker.uncaught := None |}) ∧
    Proxy.decode resp = Some d ∧
    ∀ sp' p, terminating sp' (fresh (dom (Proxy.calls sp))) p →
      shut_down (run id [] σ).1 (Proxy.worker_alive sp')
        (Proxy.worker_alive (Proxy.onmessage d sp'))
        (chained_state (Proxy.onmessage d sp') p).
Proof.
  intros Hhook Hf Hu Hb.
  pose proof (hooked_worker _ _ _ _ Hhook) as Hw.
  set (u := fresh (dom (Proxy.calls sp))) in *.
  destruct (response_carried u (run id [] σ).1 Hb)
    as (resp & d & s & Hresp & Hdec & Hcar & Hagr).
  exists resp, d. split; [|split; [done|]].
  - destruct (reserved_fields "onterminate" u) as (Huuid & _ & Hargs & _).
    rewrite <-Hresp.
    rewrite (code_call_reaction run ws (reserved "onterminate" u) σ
               Worker.This id).
    + by rewrite Huuid, Hargs.
    + done.
    + by rewrite reserved_well_formed, bool_decide_eq_true_2.
    + rewrite select_method_internal by reflexivity.
      change (Worker.this_get ws
                (Worker.string_of (get (reserved "onterminate" u) "method")))
        with (Worker.onterminate ws).
      by rewrite Hf.
  - intros sp' p Hterm. unfold shut_down, agrees in *.
    destruct (run id [] σ).1 as [v|e|v|e|]; try done.
    + subst s. by apply terminating_fulfilled with u v.
    + destruct Hagr as (x & -> & Hsame).
      destruct (terminating_rejected d u _ sp' p Hcar Hterm) as [-> ->].
      eauto.
    + subst s. by apply terminating_fulfilled with u v.
    + destruct Hagr as (x & -> & Hsame).
      destruct (terminating_rejected d u _ sp' p Hcar Hterm) as [-> ->].
      eauto.
Qed.

End Both.

(** *** Witnesses, with the allocator [next_key] and the sample service *)

(** C1 at a spec that inherits its service.  The spec passes validation,
    the methods of the service are gathered and the stand-in gets the
    member [syncwork]; but the instance is built from the own members of
    the spec and holds no service, so the request the member posts is
    dispatched to the endpoint itself and answered by the rejection
    [unknown method], the service is not called, and the promise of the
    call is rejected with that error. *)
Lemma inherited_service_call_fails :
  Worker.hookService false spec_inherited_service None
  = (Ok tt, Some ws_inherited_service) ∧
  Proxy.proxy (Worker.methods ws_inherited_service) !! "syncwork"
  = Some (Proxy.forward "syncwork") ∧
  Worker.onmessage sample_run ws_inherited_service
    (forwarded "syncwork" [VStr "foo"; VStr "bar"] 2) 0
  = Some (0, {| Worker.posted :=
                  [Worker.reject_message (VNum (int 2))
                     (new_error "Error" "unknown method")];
                Worker.uncaught := None |}) ∧
  ∃ d e,
    Proxy.decode (Worker.reject_message (VNum (int 2))
                    (new_error "Error" "unknown method")) = Some d ∧
    promise_state (Proxy.onmessage d sample_call.1) 1
    = Some (Proxy.Rejected (Proxy.Reason e)) ∧
    get e "name" = VStr "Error" ∧
    get e "message" = VStr "unknown method".
Proof.
  split; [vm_compute; reflexivity|]. split; [reflexivity|].
  split; [reflexivity|].
  eexists _, _. split; [apply decode_reject|].
  split.
  - apply settled_by_response with 2%Z.
    + apply carries_reject. vm_compute. reflexivity.
    + split; [vm_compute; reflexivity|].
      eexists; (split; [vm_compute; reflexivity|split; reflexivity]).
  - split; reflexivity.
Qed.

Lemma round_trip_witness :
  ∃ resp d,
    Worker.onmessage sample_run sample_ws
      (forwarded "syncwork" [VStr "foo"; VStr "bar"] 2) 0
    = Some (1, {| Worker.posted := [resp]; Worker.uncaught := None |}) ∧
    Proxy.decode resp = Some d ∧
    ∃ s, promise_state (Proxy.onmessage d sample_call.1) 1 = Some s ∧
         agrees (Returns (VStr "foo")) s.
Proof.
  destruct (round_trip sample_run false sample_spec None sample_ws
              "syncwork" "syncwork" [VStr "foo"; VStr "bar"] 0
              Proxy.timeout sample_proxy)
    as (_ & _ & Hout & resp & d & Hw & Hd & Hp).
  - vm_compute. reflexivity.
  - apply (bool_decide_eq_true_1 _). reflexivity.
  - reflexivity.
  - apply Z.leb_le. vm_compute. reflexivity.
  - reflexivity.
  - exists resp, d. split; [exact Hw|]. split; [exact Hd|].
    exact (Hp sample_call.1 Hout).
Defined.


Lemma terminate_without_handler_witness :
  ∃ resp d,
    Worker.onmessage sample_run ws_without_handler
      (reserved "onterminate" 2) 0
    = Some (0, {| Worker.posted := [resp]; Worker.uncaught := None |}) ∧
    Proxy.decode resp = Some d ∧
    Proxy.worker_alive
      (Proxy.onmessage d (Proxy.terminate Proxy.timeout sample_proxy).1)
    = true.
Proof.
  destruct (terminate_without_handler sample_run false spec_without_handler
              None
              ws_without_handler 0 Proxy.timeout sample_proxy)
    as (_ & resp & d & e & Hw & Hd & _ & _ & Hp).
  - vm_compute. reflexivity.
  - reflexivity.
  - apply Z.leb_le. vm_compute. reflexivity.
  - exists resp, d. split; [exact Hw|]. split; [exact Hd|].
    apply (Hp (Proxy.terminate Proxy.timeout sample_proxy).1 1).
    split; [vm_compute; reflexivity|].
    eexists. split; [vm_compute; reflexivity|].
    repeat split; reflexivity.
Defined.

Lemma terminate_with_handler_witness :
  ∃ resp d,
    Worker.onmessage sample_run sample_ws (reserved "onterminate" 2) 0
    = Some (1, {| Worker.posted := [resp]; Worker.uncaught := None |}) ∧
    Proxy.decode resp = Some d ∧
    Proxy.worker_alive
      (Proxy.onmessage d (Proxy.terminate Proxy.timeout sample_proxy).1)
    = false.
Proof.
  destruct (terminate_with_handler sample_run false sample_spec None
              sample_ws
              "stop" 0 sample_proxy)
    as (resp & d & Hw & Hd & Hp).
  - vm_compute. reflexivity.
  - reflexivity.
  - apply Z.leb_le. vm_compute. reflexivity.
  - reflexivity.
  - exists resp, d. split; [exact Hw|]. split; [exact Hd|].
    apply (Hp (Proxy.terminate Proxy.timeout sample_proxy).1 1).
    split; [vm_compute; reflexivity|].
    eexists. split; [vm_compute; reflexivity|].
    repeat split; reflexivity.
Defined.

End RoundTrip.

Module ProxyTraceFacts.
Import Js Proxy ProxySpec ProxyMore JsFacts ProxyFacts ProxyMoreFacts.

#[local] Arguments get : simpl never.

Lemma settle_length p s sp :
  length (promises (settle p s sp)) = length (promises sp).
Proof.
  unfold settle. destruct (promises sp !! p) as [c|]; [|done].
  destruct (state c); try done.
  by destruct (next c), s; cbn [kill promises]; rewrite length_insert.
Qed.

(** Settling a promise changes neither the key nor the continuation of any
    promise. *)
Lemma settle_lookup q s sp p c :
  promises (settle q s sp) !! p = Some c →
  ∃ c', promises sp !! p = Some c' ∧ uuid c' = uuid c ∧ next c' = next c.
Proof.
  destruct (decide (q = p)) as [->|Hne].
  - destruct (promises sp !! p) as [c'|] eqn:Hc'.
    + destruct (state c') eqn:Hs.
      * rewrite (settle_lookup_eq _ _ _ _ Hc' Hs). intros [= <-]. eauto.
      * unfold settle. rewrite Hc', Hs, Hc'. intros [= <-]. eauto.
      * unfold settle. rewrite Hc', Hs, Hc'. intros [= <-]. eauto.
    + unfold settle. rewrite Hc', Hc'. done.
  - rewrite settle_lookup_ne by done. eauto.
Qed.

(** The worker outlives a settlement unless the promise is the pending
    promise of [terminate ()]. *)
Lemma settle_alive_other q s sp :
  (∀ c, promises sp !! q = Some c → next c ≠ ThenKill) →
  worker_alive (settle q s sp) = worker_alive sp.
Proof.
  intros Hq. unfold settle. destruct (promises sp !! q) as [c|] eqn:Hc; [|done].
  specialize (Hq c eq_refl). destruct (state c); try done.
  by destruct (next c), s.
Qed.

Lemma settle_dead q s sp :
  worker_alive sp = false → worker_alive (settle q s sp) = false.
Proof.
  intros Hd. unfold settle. destruct (promises sp !! q) as [c|]; [|done].
  destruct (state c); try done. by destruct (next c), s.
Qed.

(** Settling the promise of the record just removed keeps the records
    consistent. *)
Lemma settle_records q s u sp :
  records_outstanding sp →
  (∀ c, promises sp !! q = Some c → uuid c = u) →
  records_outstanding (settle q s (without_record u sp)).
Proof.
  intros Hinv Hq u' r'. rewrite settle_calls. cbn [without_record calls].
  intros [Hne Hr']%lookup_delete_Some.
  destruct (Hinv u' r' Hr') as [Hu' (c & Hc & Hk & Hs)].
  assert (q ≠ promise r') as Hp.
  { intros ->. apply Hne. by rewrite <-(Hq c Hc). }
  split.
  - rewrite settle_calls. cbn [without_record calls].
    by rewrite lookup_delete_ne.
  - exists c. by rewrite settle_lookup_ne.
Qed.

Lemma without_record_records u sp :
  records_outstanding sp → records_outstanding (without_record u sp).
Proof.
  intros Hinv u' r'. cbn [without_record calls].
  intros [Hne Hr']%lookup_delete_Some.
  destruct (Hinv u' r' Hr') as [Hu' Hc].
  split; [|done]. cbn [without_record calls]. by rewrite lookup_delete_ne.
Qed.

Section Steps.
Context `{Allocator}.

(** What [onmessage] does to an instance. *)
Lemma onmessage_cases d sp :
  onmessage d sp = sp ∨
  ∃ u r, calls sp !! u = Some r ∧
    (onmessage d sp = without_record u sp ∨
     ∃ s, onmessage d sp = settle (promise r) s (without_record u sp)).
Proof.
  unfold onmessage. destruct (has (data_uuid d) (calls sp)) eqn:Hhas;
    [|by left].
  apply has_true in Hhas as (u & r & Hn & Hu).
  rewrite (pop_key _ _ _ _ Hn Hu). cbn [negb]. right. exists u, r.
  split; [done|].
  destruct (call_member (data_method d)) as [[| |]|]; eauto.
Qed.

(** What the timer of a promise does to an instance. *)
Lemma ontimeout_cases p sp sp' :
  ontimeout p sp = Some sp' →
  sp' = sp ∨
  ∃ c, promises sp !! p = Some c ∧
       sp' = settle p (Rejected TimeoutError) (without_record (uuid c) sp).
Proof.
  unfold ontimeout. destruct (promises sp !! p) as [c|] eqn:Hc;
    [|intros [= <-]; by left].
  destruct (state c); try (intros [= <-]; by left).
  unfold pop. rewrite key_of_int. cbn [mbind option_bind].
  destruct (calls sp !! uuid c) as [r|]; [|done].
  intros [= <-]. right. eauto.
Qed.

Lemma terminate_spec static sp :
  (terminate static sp).1
  = {| worker_alive := worker_alive sp;
       outbox := outbox (call static (obj [("method", VStr "onterminate")])
                           sp).1;
       calls := calls (call static (obj [("method", VStr "onterminate")])
                         sp).1;
       promises :=
         alter (set_next ThenKill) (length (promises sp))
           (promises (call static (obj [("method", VStr "onterminate")])
                        sp).1) |}.
Proof. reflexivity. Qed.

(** *** The records stay consistent *)

Lemma call_records static spec sp :
  records_outstanding sp → records_outstanding (call static spec sp).1.
Proof.
  intros Hinv u r Hlk.
  assert (calls (call static spec sp).1
          = <[fresh (dom (calls sp)) := {| promise := length (promises sp) |}]>
              (calls sp)) as Hcalls by reflexivity.
  rewrite Hcalls in Hlk.
  apply lookup_insert_Some in Hlk as [[<- <-]|[Hne Hr]].
  - exact (call_outstanding static spec sp).
  - destruct (Hinv u r Hr) as [Hu (c & Hc & Hk & Hs)]. split.
    + rewrite Hcalls, lookup_insert_ne by done. by destruct r.
    + exists c. rewrite call_spec. cbn [fst promises].
      by rewrite (lookup_app_l_Some _ _ _ _ Hc).
Qed.

Lemma next_records k sp ps :
  records_outstanding sp →
  records_outstanding
    {| worker_alive := worker_alive sp; outbox := outbox sp;
       calls := calls sp;
       promises := alter (set_next k) ps (promises sp) |}.
Proof.
  intros Hinv u r Hr. destruct (Hinv u r Hr) as [Hu (c & Hc & Hk & Hs)].
  split; [done|]. cbn [promises].
  destruct (decide (ps = promise r)) as [->|Hne].
  - exists (set_next k c). by rewrite list_lookup_alter_eq, Hc.
  - exists c. by rewrite list_lookup_alter_ne.
Qed.

Lemma terminate_records static sp :
  records_outstanding sp → records_outstanding (terminate static sp).1.
Proof.
  intros Hinv.
  apply (next_records ThenKill
           (call static (obj [("method", VStr "onterminate")]) sp).1
           (length (promises sp))).
  by apply call_records.
Qed.

Lemma onmessage_records d sp :
  records_outstanding sp → records_outstanding (onmessage d sp).
Proof.
  intros Hinv.
  destruct (onmessage_cases d sp) as [->|(u & r & Hr & [->|[s ->]])];
    [done|by apply without_record_records|].
  apply settle_records; [done|].
  destruct (Hinv u r Hr) as [_ (c & Hc & Hk & _)]. intros c'. by rewrite Hc; intros [= <-].
Qed.

Lemma ontimeout_records p sp sp' :
  records_outstanding sp → ontimeout p sp = Some sp' →
  records_outstanding sp'.
Proof.
  intros Hinv [->|(c & Hc & ->)]%ontimeout_cases; [done|].
  apply settle_records; [done|]. intros c'. by rewrite Hc; intros [= <-].
Qed.

Lemma handle_records e sp sp' :
  records_outstanding sp → handle e sp = Some sp' → records_outstanding sp'.
Proof.
  intros Hinv. destruct e as [static spec|static|d|p|]; cbn [handle].
  - intros [= <-]. by apply call_records.
  - intros [= <-]. by apply terminate_records.
  - intros [= <-]. by apply onmessage_records.
  - by apply ontimeout_records.
  - by intros [= <-].
Qed.

Lemma after_records events : ∀ sp sp',
  records_outstanding sp → after events sp = Some sp' →
  records_outstanding sp'.
Proof.
  induction events as [|e rest IH]; intros sp sp' Hinv; cbn [after].
  - by intros [= <-].
  - destruct (handle e sp) as [sp1|] eqn:He; [|done]. cbn [mbind option_bind].
    apply IH. by apply (handle_records e sp).
Qed.

Lemma constructor_records static path :
  records_outstanding (constructor static path).1.
Proof.
  apply (next_records ThenProxy
           (call static (obj [("method", VStr "getServiceMethods")])
              {| worker_alive := true; outbox := [];
                 calls := newIndexedQueue; promises := [] |}).1 0).
  apply call_records. by intros u r.
Qed.

(** *** What is posted, and what is promised *)

Lemma onmessage_frame d sp :
  outbox (onmessage d sp) = outbox sp ∧
  length (promises (onmessage d sp)) = length (promises sp).
Proof.
  destruct (onmessage_cases d sp) as [->|(u & r & Hr & [->|[s ->]])];
    [done..|].
  by rewrite settle_outbox, settle_length.
Qed.

Lemma ontimeout_frame p sp sp' :
  ontimeout p sp = Some sp' →
  outbox sp' = outbox sp ∧ length (promises sp') = length (promises sp).
Proof.
  intros [->|(c & Hc & ->)]%ontimeout_cases; [done|].
  by rewrite settle_outbox, settle_length.
Qed.

Lemma handle_frame e sp sp' :
  handle e sp = Some sp' →
  (∃ msg, places_call e = true ∧ outbox sp' = outbox sp ++ [msg] ∧
          length (promises sp') = S (length (promises sp))) ∨
  (places_call e = false ∧ outbox sp' = outbox sp ∧
   length (promises sp') = length (promises sp)).
Proof.
  destruct e as [static spec|static|d|p|]; cbn [handle places_call].
  - intros [= <-]. left. eexists. rewrite ?call_spec.
    cbn [fst outbox promises].
    split; [done|]. split; [done|]. rewrite length_app. simpl. lia.
  - intros [= <-]. left. eexists. rewrite ?terminate_spec, ?call_spec.
    cbn [fst outbox promises].
    split; [done|]. split; [done|].
    rewrite length_alter, length_app. simpl. lia.
  - intros [= <-]. right. split; [done|]. apply onmessage_frame.
  - intros Ht. right. split; [done|]. by apply (ontimeout_frame p).
  - intros [= <-]. by right.
Qed.

Lemma after_frame events : ∀ sp sp',
  after events sp = Some sp' →
  outbox sp `prefix_of` outbox sp' ∧
  length (outbox sp')
  = length (outbox sp) + length (filter (λ e, places_call e) events) ∧
  length (promises sp')
  = length (promises sp) + length (filter (λ e, places_call e) events).
Proof.
  induction events as [|e rest IH]; intros sp sp'; cbn [after].
  - intros [= <-]. rewrite filter_nil. simpl. split; [done|]. lia.
  - destruct (handle e sp) as [sp1|] eqn:He; [|done]. cbn [mbind option_bind].
    intros (Hpre & Hout & Hprom)%IH.
    destruct (handle_frame e sp sp1 He)
      as [(msg & Hp & Ho & Hl)|(Hp & Ho & Hl)].
    + rewrite filter_cons_True by (by rewrite Hp). rewrite Ho in Hpre, Hout.
      rewrite length_app in Hout. simpl in *.
      split; [by apply prefix_app_l in Hpre|]. lia.
    + rewrite filter_cons_False by (rewrite Hp; intros []). rewrite Ho in Hpre, Hout.
      split; [done|]. lia.
Qed.

(** *** The life of the worker *)

Lemma handle_dead e sp sp' :
  handle e sp = Some sp' → worker_alive sp = false →
  worker_alive sp' = false.
Proof.
  destruct e as [static spec|static|d|p|]; cbn [handle].
  - by intros [= <-].
  - by intros [= <-].
  - intros [= <-] Hd.
    destruct (onmessage_cases d sp) as [->|(u & r & Hr & [->|[s ->]])];
      [done..|].
    by apply settle_dead.
  - intros [->|(c & Hc & ->)]%ontimeout_cases Hd; [done|].
    by apply settle_dead.
  - by intros [= <-].
Qed.

Lemma settle_no_terminate q s sp :
  no_terminate sp →
  no_terminate (settle q s sp) ∧
  worker_alive (settle q s sp) = worker_alive sp.
Proof.
  intros Hn. split.
  - intros p c (c' & Hc' & _ & <-)%settle_lookup. by apply (Hn p).
  - apply settle_alive_other. intros c. apply Hn.
Qed.

Lemma handle_alive e sp sp' :
  handle e sp = Some sp' → destroys e = false → no_terminate sp →
  no_terminate sp' ∧ worker_alive sp' = worker_alive sp.
Proof.
  destruct e as [static spec|static|d|p|]; cbn [handle destroys]; try done.
  - intros [= <-] _ Hn. split; [|done]. rewrite ?call_spec.
    intros p c. cbn [fst promises].
    intros [Hc|[_ Hc]]%lookup_app_Some; [by apply (Hn p)|].
    apply list_lookup_singleton_Some in Hc as [_ <-]. done.
  - intros [= <-] _ Hn.
    destruct (onmessage_cases d sp) as [->|(u & r & Hr & [->|[s ->]])];
      [done..|].
    by apply (settle_no_terminate _ _ (without_record u sp)).
  - intros [->|(c & Hc & ->)]%ontimeout_cases _ Hn; [done|].
    by apply (settle_no_terminate _ _ (without_record (uuid c) sp)).
Qed.

Lemma after_dead events : ∀ sp sp',
  after events sp = Some sp' → worker_alive sp = false →
  worker_alive sp' = false.
Proof.
  induction events as [|e rest IH]; intros sp sp'; cbn [after].
  - by intros [= <-].
  - destruct (handle e sp) as [sp1|] eqn:He; [|done]. cbn [mbind option_bind].
    intros Hrest Hd. apply (IH sp1); [done|]. by apply (handle_dead e sp).
Qed.

Lemma after_alive events : ∀ sp sp',
  after events sp = Some sp' →
  Forall (λ e, destroys e = false) events → no_terminate sp →
  worker_alive sp' = worker_alive sp.
Proof.
  induction events as [|e rest IH]; intros sp sp'; cbn [after].
  - by intros [= <-].
  - destruct (handle e sp) as [sp1|] eqn:He; [|done]. cbn [mbind option_bind].
    intros Hrest [He' Hall]%Forall_cons Hn.
    destruct (handle_alive e sp sp1 He He' Hn) as [Hn1 <-].
    by apply IH.
Qed.

Lemma constructor_no_terminate static path :
  no_terminate (constructor static path).1.
Proof.
  rewrite constructor_spec. intros [|p] c; [|done]. by intros [= <-].
Qed.

End Steps.

End ProxyTraceFacts.

Module ProxyTraces.
Import Js Proxy ProxySpec ProxyMore MoreSamples.
Import JsFacts ProxyFacts ProxyMoreFacts ProxyTraceFacts.

#[local] Arguments get : simpl never.

Section Traces.
Context `{Allocator}.

(** X21: whatever calls are placed, messages received and timers fired
    after the construction of an instance, every record of its queue
    belongs to a call that is outstanding: the promise the record settles
    is pending and was given the key of the record.  So a [resolve] or
    [reject] response whose key holds a record settles a promise that was
    pending, and the timer of a call whose record is in the queue
    never pops a key that holds no record. *)
Theorem records_belong_to_pending_calls static path events sp :
  after events (constructor static path).1 = Some sp →
  (∀ u r, calls sp !! u = Some r → outstanding sp u (promise r)) ∧
  (∀ d u s, carries d u s → is_Some (calls sp !! u) →
     ∃ p, promise_state sp p = Some Pending ∧
          promise_state (onmessage d sp) p = Some s) ∧
  (∀ u r, calls sp !! u = Some r → is_Some (ontimeout (promise r) sp)).
Proof.
  intros Hafter.
  pose proof (after_records events _ sp (constructor_records static path)
                Hafter) as Hinv.
  split; [done|]. split.
  - intros d u s Hd [r Hr]. exists (promise r).
    pose proof (Hinv u r Hr) as Hout. split.
    + destruct Hout as [_ (c & Hc & _ & Hs)].
      unfold promise_state. by rewrite Hc, <-Hs.
    + by apply settled_by_response with u.
  - intros u r Hr. by rewrite (ontimeout_outstanding sp u _ (Hinv u r Hr)).
Qed.

(** X22: an instance posts one message when it is constructed and one for
    each call placed afterwards, [terminate ()] included, and it posts
    nothing else: no message received, no timer and no [kill ()] posts
    anything.  It holds one promise for each message posted, and a message
    once posted stays in its place. *)
Theorem one_message_per_call static path events sp :
  after events (constructor static path).1 = Some sp →
  length (outbox sp) = S (length (filter (λ e, places_call e) events)) ∧
  length (promises sp) = length (outbox sp) ∧
  ∀ events' sp', after events' sp = Some sp' →
    outbox sp `prefix_of` outbox sp'.
Proof.
  intros (_ & Hout & Hprom)%after_frame.
  rewrite constructor_spec in Hout, Hprom. cbn [fst outbox promises] in *.
  split; [by rewrite Hout|]. split; [by rewrite Hout, Hprom|].
  by intros events' sp' (Hpre & _)%after_frame.
Qed.

(** X23: the worker is destroyed only on request.  As long as neither
    [terminate ()] nor [kill ()] is called, no call, no message and no
    timer destroys it; and once it is destroyed nothing brings it back. *)
Theorem worker_destroyed_only_on_request static path events sp :
  after events (constructor static path).1 = Some sp →
  (Forall (λ e, destroys e = false) events → worker_alive sp = true) ∧
  (worker_alive sp = false →
   ∀ events' sp', after events' sp = Some sp' → worker_alive sp' = false).
Proof.
  intros Hafter. split.
  - intros Hall.
    rewrite (after_alive events _ sp Hafter Hall
               (constructor_no_terminate static path)).
    by rewrite constructor_spec.
  - intros Hd events' sp' Hafter'. by apply (after_dead events' sp).
Qed.

End Traces.

(** *** Witnesses, with the allocator [next_key] *)

Lemma records_belong_to_pending_calls_witness :
  outstanding
    (call timeout (forward "syncwork" [])
       (onmessage (response 1 "resolve" (VArr [])) sample_proxy)).1 1 1.
Proof.
  destruct (records_belong_to_pending_calls timeout "worker.js"
              [Received (response 1 "resolve" (VArr []));
               Called timeout (forward "syncwork" [])]
              (call timeout (forward "syncwork" [])
                 (onmessage (response 1 "resolve" (VArr []))
                    sample_proxy)).1) as (Hrec & _).
  - reflexivity.
  - apply (Hrec 1%Z {| promise := 1 |}). vm_compute. reflexivity.
Defined.

Lemma one_message_per_call_witness :
  length (outbox (onmessage (response 2 "reject" (VStr "no")) two_calls)) = 3.
Proof.
  destruct (one_message_per_call timeout "worker.js"
              [Called timeout (forward "syncwork" []);
               Called timeout (forward "asyncwork" []);
               Received (response 2 "reject" (VStr "no"))]
              (onmessage (response 2 "reject" (VStr "no")) two_calls))
    as (Hout & _).
  - reflexivity.
  - exact Hout.
Defined.

Lemma worker_destroyed_only_on_request_witness :
  worker_alive (onmessage (response 2 "reject" (VStr "no")) two_calls) = true.
Proof.
  destruct (worker_destroyed_only_on_request timeout "worker.js"
              [Called timeout (forward "syncwork" []);
               Called timeout (forward "asyncwork" []);
               Received (response 2 "reject" (VStr "no"))]
              (onmessage (response 2 "reject" (VStr "no")) two_calls))
    as (Halive & _).
  - reflexivity.
  - apply Halive. repeat constructor.
Defined.

End ProxyTraces.

Module Failures.
Import Js IndexedQueue ProxySpec ProxyMore BothSides Sample MoreSamples.
Import JsFacts WorkerFacts WorkerMoreFacts ProxyFacts ProxyMoreFacts.
Import RoundTripFacts.

#[local] Arguments get : simpl never.

Section Both.
Context `{Allocator} {Σ : Type}
        (run : string → list value → Σ → behaviour * Σ).

(** X24: a primitive that a service method throws or rejects with does not
    reach the caller.  [reject] reads [name], [message] and [stack] from
    it, so whatever the string, number or boolean, the worker posts the
    same [reject] message, with a descriptor whose three fields are
    [undefined], and the promise of the call is rejected with that
    descriptor. *)
Theorem primitive_error_lost same spec slot ws m id args σ e u sp p :
  Worker.hookService same spec slot = (Ok tt, Some ws) →
  m ∈ Worker.methods ws →
  get (Worker.service ws) m = VFun (Code id) →
  (Z.abs u ≤ max_safe_integer)%Z →
  (run id args σ).1 = Throws e ∨ (run id args σ).1 = Rejects e →
  WorkerMore.primitive e = true →
  outstanding sp u p →
  ∃ d,
    Worker.onmessage run ws (forwarded m args u) σ
    = Some ((run id args σ).2,
            {| Worker.posted :=
                 [obj [("uuid", VNum (int u)); ("method", VStr "reject");
                       ("args", VArr [WorkerMore.empty_descriptor])]];
               Worker.uncaught := None |}) ∧
    Proxy.decode
      (obj [("uuid", VNum (int u)); ("method", VStr "reject");
            ("args", VArr [WorkerMore.empty_descriptor])]) = Some d ∧
    promise_state (Proxy.onmessage d sp) p
    = Some (Proxy.Rejected (Proxy.Reason WorkerMore.empty_descriptor)).
Proof.
  intros Hhook Hm Hf Hu Hb He Hout.
  pose proof (hooked_worker _ _ _ _ Hhook) as Hw.
  assert (isObject (Worker.service ws) = true) as Hs.
  { apply (isFunction_get_isObject _ m). by rewrite Hf. }
  assert (Worker.reject_message (VNum (int u)) e
          = obj [("uuid", VNum (int u)); ("method", VStr "reject");
                 ("args", VArr [WorkerMore.empty_descriptor])]) as Hmsg.
  { by destruct e. }
  assert (nullish e = false) as Hn by (by destruct e).
  eexists. split; [|split; [rewrite <-Hmsg; apply decode_reject|]].
  - destruct (forwarded_fields m args u) as (Huuid & Htarget & Hargs & Hname).
    rewrite (code_call_reaction run ws (forwarded m args u) σ
               Worker.Service id).
    + rewrite Huuid, Hargs. unfold WorkerMore.response_to.
      by destruct Hb as [-> | ->]; cbn [Promise_try]; rewrite Hn, Hmsg.
    + done.
    + by rewrite forwarded_well_formed, bool_decide_eq_true_2.
    + rewrite select_method_service; rewrite ?Hname; try done.
      by rewrite Hf.
  - apply settled_by_response with u; [|done].
    assert (WorkerMore.empty_descriptor
            = obj [("name", get e "name"); ("message", get e "message");
                   ("stack", get e "stack")]) as -> by (by destruct e).
    apply carries_reject, key_of_int.
Qed.

(** X25: a call the worker does not answer ends with the timeout.  When
    the service method returns a promise that never settles, or throws or
    rejects with [null] or [undefined], the worker posts nothing in
    response to the request (in the second case the [TypeError] that
    [reject] throws stays unhandled), and the promise of the call is
    rejected with a [TimeoutError] when its timer fires. *)
Theorem unanswered_call_times_out same spec slot ws m id args σ static sp :
  Worker.hookService same spec slot = (Ok tt, Some ws) →
  m ∈ Worker.methods ws →
  get (Worker.service ws) m = VFun (Code id) →
  (Z.abs (fresh (dom (Proxy.calls sp))) ≤ max_safe_integer)%Z →
  answered (run id args σ).1 = false →
  (∃ r,
     Worker.onmessage run ws
       (forwarded m args (fresh (dom (Proxy.calls sp)))) σ
     = Some ((run id args σ).2, r) ∧
     Worker.posted r = [] ∧
     ((run id args σ).1 ≠ Unsettled →
      Worker.uncaught r = Some host_type_error)) ∧
  ∃ sp'',
    Proxy.ontimeout (Proxy.call static (Proxy.forward m args) sp).2
      (Proxy.call static (Proxy.forward m args) sp).1 = Some sp'' ∧
    promise_state sp'' (Proxy.call static (Proxy.forward m args) sp).2
    = Some (Proxy.Rejected Proxy.TimeoutError).
Proof.
  intros Hhook Hm Hf Hu Hb.
  pose proof (hooked_worker _ _ _ _ Hhook) as Hw.
  assert (isObject (Worker.service ws) = true) as Hs.
  { apply (isFunction_get_isObject _ m). by rewrite Hf. }
  set (u := fresh (dom (Proxy.calls sp))) in *.
  split.
  - destruct (forwarded_fields m args u) as (Huuid & Htarget & Hargs & Hname).
    eexists. split.
    + rewrite (code_call_reaction run ws (forwarded m args u) σ
                 Worker.Service id).
      * rewrite Huuid, Hargs. reflexivity.
      * done.
      * by rewrite forwarded_well_formed, bool_decide_eq_true_2.
      * rewrite select_method_service; rewrite ?Hname; try done.
        by rewrite Hf.
    + unfold WorkerMore.response_to, answered in *.
      destruct (run id args σ).1 as [v|e|v|e|]; try done;
        cbn [Promise_try]; apply negb_false_iff in Hb; by rewrite Hb.
  - pose proof (call_outstanding static (Proxy.forward m args) sp) as Hout.
    eexists. split; [by apply ontimeout_outstanding|].
    destruct Hout as [_ (c & Hc & _ & Hst)].
    unfold promise_state. by rewrite (settle_lookup_eq _ _ _ c).
Qed.

End Both.

(** *** Witnesses, with the allocator [next_key] *)

Lemma primitive_error_lost_witness :
  ∃ d,
    Proxy.decode
      (obj [("uuid", VNum (int 2)); ("method", VStr "reject");
            ("args", VArr [WorkerMore.empty_descriptor])]) = Some d ∧
    promise_state (Proxy.onmessage d sample_call.1) 1
    = Some (Proxy.Rejected (Proxy.Reason WorkerMore.empty_descriptor)).
Proof.
  destruct (primitive_error_lost primitive_run false sample_spec None
              sample_ws
              "syncwork" "syncwork" [VStr "foo"; VStr "bar"] 0 (VStr "oops")
              2 sample_call.1 1) as (d & _ & Hd & Hp).
  - vm_compute. reflexivity.
  - apply (bool_decide_eq_true_1 _). reflexivity.
  - reflexivity.
  - apply Z.leb_le. vm_compute. reflexivity.
  - left. reflexivity.
  - reflexivity.
  - split; [vm_compute; reflexivity|].
    eexists; (split; [vm_compute; reflexivity|split; reflexivity]).
  - exists d. split; [exact Hd|exact Hp].
Defined.

Lemma unanswered_call_times_out_witness :
  ∃ sp'',
    Proxy.ontimeout sample_call.2 sample_call.1 = Some sp'' ∧
    promise_state sp'' sample_call.2
    = Some (Proxy.Rejected Proxy.TimeoutError).
Proof.
  destruct (unanswered_call_times_out throwing_run false sample_spec None
              sample_ws
              "syncwork" "syncwork" [VStr "foo"; VStr "bar"] 0
              Proxy.timeout sample_proxy) as (_ & Htime).
  - vm_compute. reflexivity.
  - apply (bool_decide_eq_true_1 _). reflexivity.
  - reflexivity.
  - apply Z.leb_le. vm_compute. reflexivity.
  - reflexivity.
  - exact Htime.
Defined.

End Failures.

Module TargetFacts.
Import Js Worker WorkerSpec WorkerMore JsFacts WorkerFacts WorkerMoreFacts.

#[local] Arguments get : simpl never.

(** Every member of a table of built-ins is a function. *)
Lemma natives_function owner names k v :
  natives owner names !! k = Some v → isFunction v = true.
Proof.
  unfold natives. intros Hk%elem_of_list_to_map_2.
  by apply list_elem_of_fmap in Hk as (n & [= _ ->] & _).
Qed.

Lemma class_prototype_function k v :
  WorkerServiceClass_prototype !! k = Some v → isFunction v = true.
Proof.
  unfold WorkerServiceClass_prototype. intros Hk%elem_of_list_to_map_2.
  repeat (apply elem_of_cons in Hk as [[= _ ->]|Hk]; [done|]).
  by apply elem_of_nil in Hk.
Qed.

(** The objects the endpoint holds, and the names that reach them. *)
Lemma this_get_object ws k :
  isObject (onterminate ws) = false →
  isObject (this_get ws k) = true →
  k ∈ ["worker"; "service"; "methods"; "__proto__"].
Proof.
  intros Hterm. unfold this_get.
  destruct (String.eqb_spec k "__proto__") as [->|Hproto].
  { intros _. repeat constructor. }
  unfold get, this_object. cbn [own_properties prototype_chain lookup_chain].
  destruct (list_to_map _ !! k) as [v|] eqn:Hown.
  - apply elem_of_list_to_map_2 in Hown.
    repeat (apply elem_of_cons in Hown as [[= -> ->]|Hown];
            [cbn [default from_option id]; intros Hobj;
             first [congruence | solve [repeat constructor]]|]).
    by apply elem_of_nil in Hown.
  - destruct (WorkerServiceClass_prototype !! k) as [v|] eqn:Hclass.
    { apply class_prototype_function in Hclass. cbn [default from_option id].
      unfold isObject, isFunction in *. intros [_ Ho]%andb_prop.
      apply bool_decide_eq_true in Hclass, Ho. congruence. }
    destruct (object_prototype !! k) as [v|] eqn:Hobj; [|done].
    apply natives_function in Hobj. cbn [default from_option id].
    unfold isObject, isFunction in *. intros [_ Ho]%andb_prop.
    apply bool_decide_eq_true in Hobj, Ho. congruence.
Qed.

(** A member the spec does not hold as its own is not in the copy. *)
Lemma spread_not_own spec k :
  object_prototype !! k = None →
  own_properties spec !! k = None →
  get (spread spec) k = VUndef.
Proof.
  intros Hk Hown. unfold get.
  destruct spec as [| |b|n|s|f|l|own protos];
    cbn [spread obj own_properties prototype_chain lookup_chain] in *;
    rewrite ?lookup_empty, ?Hk; try done.
  - destruct (decide (k = "length")) as [->|Hne].
    + by rewrite lookup_delete_eq.
    + by rewrite lookup_delete_ne, Hown.
  - by rewrite Hown.
Qed.

Lemma hooked_service_not_own same spec slot ws :
  hookService same spec slot = (Ok tt, Some ws) →
  own_properties spec !! "service" = None →
  service ws = VUndef.
Proof.
  intros (_ & names & _ & [_ ->]%constructor_inv)%hookService_inv Hown.
  cbn [service]. rewrite (spread_not_own spec "service") by done.
  by rewrite andb_false_r.
Qed.

End TargetFacts.

Module Targets.
Import Js Worker WorkerSpec WorkerMore Sample MoreSamples.
Import JsFacts WorkerFacts WorkerMoreFacts TargetFacts.

#[local] Arguments get : simpl never.

(** X26: where a request is dispatched.  A well-formed request is
    dispatched to the endpoint itself unless its target is one of
    [worker], [service], [methods] and [__proto__], the names under which
    the endpoint holds an object.  The endpoint holds as its service what
    the spec held as an own member: when the spec inherits its service
    (not an array), a request with target [service] is dispatched to the
    endpoint itself as well, and with the method [getServiceMethods] it is
    answered by one [resolve] message with the list of exposed methods. *)
Theorem dispatch_targets {Σ : Type}
    (run : string → list value → Σ → behaviour * Σ)
    same spec slot ws data σ :
  hookService same spec slot = (Ok tt, Some ws) →
  well_formed data = true →
  (∀ k, get data "target" = VStr k →
        k ∉ ["worker"; "service"; "methods"; "__proto__"] →
        select_target ws data = Some This) ∧
  (get data "target" = VStr "service" →
   select_target ws data
   = Some (if isObject (service ws) then Service else This)) ∧
  (own_properties spec !! "service" = None →
   isArray (get spec "service") = false →
   get data "target" = VStr "service" →
   get data "method" = VStr "getServiceMethods" →
   onmessage run ws data σ
   = Some (σ, {| posted := [resolve_message (get data "uuid")
                              (VArr (VStr <$> methods ws))];
                 uncaught := None |})).
Proof.
  intros Hhook Hwf.
  pose proof (hooked_worker _ _ _ _ Hhook) as Hw.
  pose proof (hooked_onterminate _ _ _ _ Hhook) as Hterm.
  split; [|split].
  - intros k Ht Hk. unfold select_target. rewrite Ht.
    destruct (isObject (this_get ws k)) eqn:Ho; [|done].
    by apply this_get_object in Ho.
  - intros Ht. unfold select_target. rewrite Ht.
    change (this_get ws "service") with (service ws).
    by destruct (isObject (service ws)).
  - intros Hown _ Ht Hm.
    apply getServiceMethods_resolves; [done..| |done].
    rewrite Ht. unfold internal.
    change (this_get ws "service") with (service ws).
    by rewrite (hooked_service_not_own _ _ _ _ Hhook Hown).
Qed.

Lemma dispatch_targets_witness :
  onmessage sample_run ws_inherited_service
    (request (VStr "service") (VStr "getServiceMethods") VUndef) 0
  = Some (0, {| posted :=
                  [resolve_message (VNum (int 42))
                     (VArr [VStr "syncwork"; VStr "stop"; VStr "asyncwork"])];
                uncaught := None |}).
Proof.
  destruct (dispatch_targets sample_run false spec_inherited_service None
              ws_inherited_service
              (request (VStr "service") (VStr "getServiceMethods") VUndef) 0)
    as (_ & _ & Hanswer).
  - vm_compute. reflexivity.
  - reflexivity.
  - apply Hanswer; reflexivity.
Defined.

(** X28: a spec that passes validation but inherits its worker is not
    hooked.  Validation reads [spec.worker] through the prototype chain;
    the instance is built from the own members of the spec, its worker is
    [undefined], and writing the handler to it throws the host's
    [TypeError].  The [onmessage] slot is left as it was. *)
Theorem inherited_worker_not_hooked same spec slot :
  isValidServiceBinderSpec spec = true →
  prototype_chain (get spec "service") ≠ [] →
  own_properties spec !! "worker" = None →
  hookService same spec slot = (Throw host_type_error, slot).
Proof.
  intros Hv Hchain Hown. unfold hookService, assert. rewrite Hv.
  cbn [mbind result_bind].
  destruct (getPropertyNames_total _ None
              (own_properties (get spec "service")) Hchain) as [names ->].
  cbn [mbind result_bind]. unfold constructor.
  by rewrite (spread_not_own spec "worker").
Qed.

Lemma inherited_worker_not_hooked_witness :
  hookService false spec_inherited_worker (Some sample_ws)
  = (Throw host_type_error, Some sample_ws).
Proof.
  apply (inherited_worker_not_hooked false spec_inherited_worker
           (Some sample_ws)); [reflexivity|discriminate|reflexivity].
Defined.





End Targets.

Module Handshake.
Import Js Proxy ProxySpec ProxyMore MoreSamples.
Import JsFacts ProxyFacts ProxyMoreFacts.

#[local] Arguments get : simpl never.

Section Failures.
Context `{Allocator}.

(** X27: how the handshake fails.  The [service] promise of a new
    instance is rejected with the error of a [reject] response to the
    [getServiceMethods] call, with the host's [TypeError] when the
    [resolve] response carries something that is not an array, and with
    a [TimeoutError] when the timer of the call fires first.  In each case
    the worker is left running. *)
Theorem handshake_failures static path :
  (∀ d e, carries d (fresh ∅) (Rejected (Reason e)) →
     chained_state (onmessage d (constructor static path).1) 0
     = Some (Failed (Reason e)) ∧
     worker_alive (onmessage d (constructor static path).1) = true) ∧
  (∀ d v, carries d (fresh ∅) (Fulfilled v) → isArray v = false →
     chained_state (onmessage d (constructor static path).1) 0
     = Some (Failed (Reason host_type_error)) ∧
     worker_alive (onmessage d (constructor static path).1) = true) ∧
  ∃ sp', ontimeout 0 (constructor static path).1 = Some sp' ∧
         chained_state sp' 0 = Some (Failed TimeoutError) ∧
         worker_alive sp' = true.
Proof.
  rewrite constructor_spec. cbn [fst].
  set (c := {| uuid := fresh ∅; delay := static; state := Pending;
               next := ThenProxy |}).
  set (sp := Build_ServiceProxyClass _ _ _ _).
  assert (calls sp !! fresh ∅ = Some {| promise := 0 |}) as Hu.
  { apply lookup_singleton_eq. }
  assert (promises sp !! 0 = Some c) as Hc by done.
  assert (∀ d s, carries d (fresh ∅) s →
            chained_state (onmessage d sp) 0 = chained (set_state s c) ∧
            worker_alive (onmessage d sp) = true) as Hresp.
  { intros d s Hd. split.
    - by apply chained_after_response with (fresh ∅).
    - rewrite (onmessage_carries d _ s sp 0 Hd Hu).
      rewrite (settle_alive _ _ _ c) by done. by destruct s. }
  split; [|split].
  - intros d e Hd. by destruct (Hresp d _ Hd) as [-> ->].
  - intros d v Hd Hv. destruct (Hresp d _ Hd) as [-> ->]. split; [|done].
    unfold chained. cbn [state next set_state c]. by rewrite Hv.
  - assert (outstanding sp (fresh ∅) 0) as Hout by (split; eauto).
    eexists. split; [by apply ontimeout_outstanding|].
    rewrite (settle_alive _ _ _ c) by done. split; [|done].
    unfold chained_state. by rewrite (settle_lookup_eq _ _ _ c).
Qed.

End Failures.

Lemma handshake_failures_witness :
  chained_state (onmessage (response 1 "resolve" (VStr "syncwork"))
                   sample_proxy) 0
  = Some (Failed (Reason host_type_error)).
Proof.
  destruct (handshake_failures timeout "worker.js") as (_ & Hbad & _).
  apply (Hbad (response 1 "resolve" (VStr "syncwork")) (VStr "syncwork")).
  - apply carries_resolve. vm_compute. reflexivity.
  - reflexivity.
Defined.

End Handshake.
